(** * mockgen: the code-synthesis engine of [mockgen/mockgen.go]

    A shallow embedding of the generator ([generator.Generate] and the
    functions it calls) and of the flag parsing of [main], together with the
    properties of its output.

    Conventions of the embedding:
    - a Go [string] is a Rocq [string] (a byte sequence); [range s] goes
      through [runes], Go's UTF-8 decoding;
    - a Go [map[string]string] is a [gmap string string], a
      [map[string]bool] or [map[string]struct{}] used as a set is a
      [gset string]; the order in which [range] visits a map is not fixed by
      the language and is an explicit input, [MapOrder];
    - [bytes.Buffer] is the list of the writes made to it, [Bytes] is their
      concatenation;
    - the generator is threaded explicitly ([generator -> generator]); the
      model handed to [Generate] is threaded as well, since
      [GenerateMockMethods] sorts [intf.Methods] in place;
    - a run-time panic is [None]. *)

From stdpp Require Import base option list strings pretty sorting gmap.
From Stdlib Require Import ZArith Ascii.

Local Open Scope Z_scope.

(** ** Pieces of the Go standard library *)

Definition tab : string := String "009"%char "".
Definition nl : string := String "010"%char "".
Definition dq : string := String "034"%char "".

(** [strconv.Itoa] *)
Definition Itoa (i : Z) : string := pretty i.

(** [strings.Join] *)
Fixpoint Join (elems : list string) (sep : string) : string :=
  match elems with
  | [] => ""
  | [e] => e
  | e :: rest => e +:+ sep +:+ Join rest sep
  end.

(** [strings.Split] with a one-byte separator. *)
Fixpoint Split (s : string) (sep : ascii) : list string :=
  match s with
  | "" => [""]
  | String c s' =>
      if decide (c = sep) then "" :: Split s' sep
      else match Split s' sep with
           | x :: xs => String c x :: xs
           | [] => [String c ""]
           end
  end.

(** [kv[:eq], kv[eq+1:]] for [eq := strings.Index(kv, sep)]; slicing with
    [eq = -1] panics. *)
Fixpoint cutAt (sep : ascii) (kv : string) : option (string * string) :=
  match kv with
  | "" => None
  | String c kv' =>
      if decide (c = sep) then Some ("", kv')
      else prod_map (String c) id <$> cutAt sep kv'
  end.

(** [strings.TrimSuffix] *)
Definition TrimSuffix (s suffix : string) : string :=
  let n := (String.length s - String.length suffix)%nat in
  if decide (String.length suffix ≤ String.length s
             ∧ String.substring n (String.length suffix) s = suffix)%nat
  then String.substring 0 n s else s.

(** [s[0 : len(s)-1]] *)
Definition dropLast (s : string) : string :=
  String.substring 0 (String.length s - 1) s.

(** The keywords of [go/token]; [token.Lookup(s).IsKeyword()]. *)
Definition keywords : list string :=
  [ "break"; "case"; "chan"; "const"; "continue"; "default"; "defer";
    "else"; "fallthrough"; "for"; "func"; "go"; "goto"; "if"; "import";
    "interface"; "map"; "package"; "range"; "return"; "select"; "struct";
    "switch"; "type"; "var" ].

Definition IsKeyword (s : string) : bool := bool_decide (s ∈ keywords).

(** [path.Base] *)
Fixpoint stripTrailingSlashes (rev_path : string) : string :=
  match rev_path with
  | String "/"%char r => stripTrailingSlashes r
  | _ => rev_path
  end.

Fixpoint untilSlash (rev_path : string) : string :=
  match rev_path with
  | "" => ""
  | String c r => if decide (c = "/"%char) then "" else String c (untilSlash r)
  end.

Definition Base (path : string) : string :=
  if decide (path = "") then "."
  else
    let last := String.rev (untilSlash (stripTrailingSlashes (String.rev path))) in
    if decide (last = "") then "/" else last.

(** *** Runes: [unicode/utf8] and [unicode] *)

Definition rune := Z.
Definition RuneError : rune := 0xFFFD.

Definition byteZ (c : ascii) : Z := Z.of_N (N_of_ascii c).
Definition byteOf (b : Z) : ascii := ascii_of_N (Z.to_N b).
Definition within (lo hi b : Z) : bool := (lo <=? b) && (b <=? hi).

(** The low six bits of a continuation byte. *)
Definition cont (b : Z) : Z := Z.land b 0x3F.

(** [utf8.DecodeRuneInString]: the rune at the start of [s] and its width;
    an ill-formed sequence is [RuneError] of width 1. *)
Definition DecodeRuneInString (s : string) : rune * nat :=
  match s with
  | "" => (RuneError, 0%nat)
  | String c0 s1 =>
    let b0 := byteZ c0 in
    if b0 <? 0x80 then (b0, 1%nat)
    else if within 0xC2 0xDF b0 then
      match s1 with
      | String c1 _ =>
          let b1 := byteZ c1 in
          if within 0x80 0xBF b1
          then (Z.lor (Z.shiftl (Z.land b0 0x1F) 6) (cont b1), 2%nat)
          else (RuneError, 1%nat)
      | _ => (RuneError, 1%nat)
      end
    else if within 0xE0 0xEF b0 then
      match s1 with
      | String c1 (String c2 _) =>
          let b1 := byteZ c1 in
          let b2 := byteZ c2 in
          let lo := if b0 =? 0xE0 then 0xA0 else 0x80 in
          let hi := if b0 =? 0xED then 0x9F else 0xBF in
          if within lo hi b1 && within 0x80 0xBF b2
          then (Z.lor (Z.shiftl (Z.land b0 0x0F) 12)
                  (Z.lor (Z.shiftl (cont b1) 6) (cont b2)), 3%nat)
          else (RuneError, 1%nat)
      | _ => (RuneError, 1%nat)
      end
    else if within 0xF0 0xF4 b0 then
      match s1 with
      | String c1 (String c2 (String c3 _)) =>
          let b1 := byteZ c1 in
          let b2 := byteZ c2 in
          let b3 := byteZ c3 in
          let lo := if b0 =? 0xF0 then 0x90 else 0x80 in
          let hi := if b0 =? 0xF4 then 0x8F else 0xBF in
          if within lo hi b1 && within 0x80 0xBF b2 && within 0x80 0xBF b3
          then (Z.lor (Z.shiftl (Z.land b0 0x07) 18)
                  (Z.lor (Z.shiftl (cont b1) 12)
                     (Z.lor (Z.shiftl (cont b2) 6) (cont b3))), 4%nat)
          else (RuneError, 1%nat)
      | _ => (RuneError, 1%nat)
      end
    else (RuneError, 1%nat)
  end.

Fixpoint dropBytes (n : nat) (s : string) : string :=
  match n, s with
  | S n', String _ s' => dropBytes n' s'
  | _, _ => s
  end.

(** The runes [for _, r := range s] yields; every step consumes at least one
    byte, so [String.length s] steps are enough. *)
Fixpoint runesFrom (fuel : nat) (s : string) : list rune :=
  match fuel with
  | O => []
  | S fuel' =>
      match s with
      | "" => []
      | _ => let '(r, size) := DecodeRuneInString s in
             r :: runesFrom fuel' (dropBytes size s)
      end
  end.

Definition runes (s : string) : list rune := runesFrom (String.length s) s.

(** [string(r)]: the UTF-8 encoding of [r] ([utf8.AppendRune]). *)
Definition runeString (r : rune) : string :=
  let tx b := byteOf (Z.lor 0x80 (cont b)) in
  let bad := String (byteOf 0xEF) (String (byteOf 0xBF) (String (byteOf 0xBD) "")) in
  if within 0 0x7F r then String (byteOf r) ""
  else if within 0x80 0x7FF r then
    String (byteOf (Z.lor 0xC0 (Z.shiftr r 6))) (String (tx r) "")
  else if (r <? 0) || (0x10FFFF <? r) || within 0xD800 0xDFFF r then bad
  else if r <=? 0xFFFF then
    String (byteOf (Z.lor 0xE0 (Z.shiftr r 12)))
      (String (tx (Z.shiftr r 6)) (String (tx r) ""))
  else
    String (byteOf (Z.lor 0xF0 (Z.shiftr r 18)))
      (String (tx (Z.shiftr r 12))
         (String (tx (Z.shiftr r 6)) (String (tx r) ""))).

(** What lies outside the repository and outside the language: the Unicode
    tables above Latin-1, the quoting of [%q], the operating system, the
    [go list] oracle behind [createPackageMap] and the formatter
    [imports.Process]. A run of the program has one value of [Env]. *)
Record Env := {
  (** [unicode.Letter] and [unicode.Digit] above [unicode.MaxLatin1] *)
  LetterAboveLatin1 : rune → bool;
  DigitAboveLatin1 : rune → bool;
  (** [strconv.Quote], the rendering of [%q] *)
  Quote : string → string;
  (** [os.Args[0]] and [os.Args[1:]] *)
  Args0 : string;
  Args1 : list string;
  (** [runtime.GOOS] and [filepath.Base] *)
  GOOS : string;
  filepath_Base : string → string;
  (** [createPackageMap]: the declared names [go list] reports, when it
      reports any *)
  createPackageMap : list string → gmap string string;
  (** [toolsimports.Process(filename, src, nil)]; [None] is its error *)
  Process : string → string → option string
}.

(** [unicode.IsLetter]: the Latin-1 property table, then the range tables. *)
Definition IsLetter (E : Env) (r : rune) : bool :=
  if within 0 0xFF r then
    within 0x41 0x5A r || within 0x61 0x7A r
    || (r =? 0xAA) || (r =? 0xB5) || (r =? 0xBA)
    || within 0xC0 0xD6 r || within 0xD8 0xF6 r || within 0xF8 0xFF r
  else LetterAboveLatin1 E r.

(** [unicode.IsDigit] *)
Definition IsDigit (E : Env) (r : rune) : bool :=
  if within 0 0xFF r then within 0x30 0x39 r else DigitAboveLatin1 E r.

Definition underscore : rune := 0x5F.

(** ** [sanitize] (lines 308-329) *)

(** One iteration of [for _, r := range s]. *)
Definition sanitizeStep (E : Env) (t : string) (r : rune) : string :=
  if decide (t = "") then
    if IsLetter E r || (r =? underscore) then t +:+ runeString r
    else t +:+ "_"
  else
    if IsLetter E r || IsDigit E r || (r =? underscore) then t +:+ runeString r
    else t +:+ "_".

Definition sanitize (E : Env) (s : string) : string :=
  let t := foldl (sanitizeStep E) "" (runes s) in
  if decide (t = "_") then "x" else t.

(** ** The input model (package [model]) *)

(** [model.Type] is an interface; the generator only calls its [String]
    method, with the alias table and the package whose qualifier is to be
    left out. *)
Record Type_ := { Type_String : gmap string string → string → string }.

(** [Param.t] *)
Module Param.
Record t := { Name : string; Type' : Type_ }.
End Param.

Module Method.
Record t := {
  Name : string;
  In : list Param.t;
  Out : list Param.t;
  Variadic : option Param.t (* may be nil *)
}.
End Method.

Module Interface.
Record t := {
  Name : string;
  Methods : list Method.t;
  TypeParams : list Param.t
}.

Definition withMethods (intf : t) (ms : list Method.t) : t :=
  {| Name := Name intf; Methods := ms; TypeParams := TypeParams intf |}.
End Interface.

(** Modelled from the spec: [Imports] is the model's set of required import
    paths (spec section 3), which [pkg.Imports()] hands out as a fresh map on
    every call; the method itself is in package [model], not in this file. *)
Module Package.
Record t := {
  Name : string;
  PkgPath : string;
  Interfaces : list Interface.t;
  DotImports : list string;
  Imports : gset string
}.

Definition withInterfaces (pkg : t) (intfs : list Interface.t) : t :=
  {| Name := Name pkg; PkgPath := PkgPath pkg; Interfaces := intfs;
     DotImports := DotImports pkg; Imports := Imports pkg |}.

Definition withDotImports (pkg : t) (dotImports : list string) : t :=
  {| Name := Name pkg; PkgPath := PkgPath pkg; Interfaces := Interfaces pkg;
     DotImports := dotImports; Imports := Imports pkg |}.
End Package.

(** Modelled from the spec: a named type of package [pkg] (spec section 3:
    a type renders itself given the alias table and the import path whose
    qualifier is suppressed); its [String] method is in package [model]. *)
Definition NamedType (pkg type : string) : Type_ :=
  {| Type_String := λ pm pkgOverride,
       if decide (pkgOverride = pkg) then type
       else
         let prefix := default "" (pm !! pkg) in
         if decide (prefix ≠ "") then prefix +:+ "." +:+ type else type |}.

(** Modelled from the spec: a predeclared type renders as its name. *)
Definition PredeclaredType (name : string) : Type_ :=
  {| Type_String := λ _ _, name |}.

(** ** Configuration *)

Definition gomockImportPath : string := "go.uber.org/mock/gomock".

(** The command-line flags the generator reads. *)
Record Flags := {
  selfPackage : string;
  writeCmdComment : bool;
  writePkgComment : bool;
  writeSourceComment : bool;
  writeGenerateDirective : bool;
  typed : bool;
  imports : string
}.

(** The order in which one run of the program ranges over its maps: any
    enumeration of the entries. *)
Record MapOrder := {
  rangeMap : gmap string string → list (string * string);
  rangeMap_perm : ∀ m, rangeMap m ≡ₚ map_to_list m;
  rangeSet : gset string → list string;
  rangeSet_perm : ∀ s, rangeSet s ≡ₚ elements s
}.

(** ** The generator (lines 281-306) *)

Record generator := {
  buf : list string;
  indent : string;
  mockNames : gmap string string; (* may be empty *)
  filename : string;              (* may be empty *)
  destination : string;           (* may be empty *)
  srcPackage : string;
  srcInterfaces : string;         (* may be empty *)
  copyrightHeader : string;
  buildConstraint : string;       (* may be empty *)
  packageMap : gmap string string (* map from import path to package name *)
}.

Definition set_buf (g : generator) (b : list string) : generator :=
  {| buf := b; indent := indent g; mockNames := mockNames g;
     filename := filename g; destination := destination g;
     srcPackage := srcPackage g; srcInterfaces := srcInterfaces g;
     copyrightHeader := copyrightHeader g;
     buildConstraint := buildConstraint g; packageMap := packageMap g |}.

Definition set_indent (g : generator) (i : string) : generator :=
  {| buf := buf g; indent := i; mockNames := mockNames g;
     filename := filename g; destination := destination g;
     srcPackage := srcPackage g; srcInterfaces := srcInterfaces g;
     copyrightHeader := copyrightHeader g;
     buildConstraint := buildConstraint g; packageMap := packageMap g |}.

Definition set_packageMap (g : generator) (pm : gmap string string) : generator :=
  {| buf := buf g; indent := indent g; mockNames := mockNames g;
     filename := filename g; destination := destination g;
     srcPackage := srcPackage g; srcInterfaces := srcInterfaces g;
     copyrightHeader := copyrightHeader g;
     buildConstraint := buildConstraint g; packageMap := pm |}.


(** [g.p(format, args...)]; [line] is [format] with its arguments filled in. *)
Definition p (line : string) (g : generator) : generator :=
  set_buf g (buf g ++ [indent g +:+ line +:+ nl]).

Definition in_ (g : generator) : generator :=
  set_indent g (indent g +:+ tab).

Definition out (g : generator) : generator :=
  if decide (0 < String.length (indent g))%nat
  then set_indent g (dropLast (indent g)) else g.

(** ** The identifier allocator (lines 842-861) *)

Definition identifierAllocator := gset string.

Definition newIdentifierAllocator (taken : list string) : identifierAllocator :=
  list_to_set taken.

(** The loop [for i := 2; ; i++] of [allocateIdentifier], entered with the
    current [id] and [i]; [fuel] bounds the number of iterations. *)
Fixpoint allocateLoop (fuel : nat) (o : gset string) (want id : string) (i : Z)
    : option (string * gset string) :=
  match fuel with
  | O => None
  | S fuel' =>
      if decide (id ∈ o)
      then allocateLoop fuel' o want (want +:+ "_" +:+ Itoa i) (i + 1)
      else Some (id, {[id]} ∪ o)
  end.

(** [o.allocateIdentifier(want)]: the chosen name and the allocator after
    the call. [size o + 1] iterations always suffice
    ([allocateLoop_terminates]), so the last branch is never taken. *)
Definition allocateIdentifier (o : gset string) (want : string)
    : string * gset string :=
  match allocateLoop (S (size o)) o want want 2 with
  | Some r => r
  | None => (want, o)
  end.

(** ** Names (lines 478-510, 786-840) *)

(** The name of the mock type to use for the given interface identifier. *)
Definition mockName (g : generator) (typeName : string) : string :=
  match mockNames g !! typeName with
  | Some mockName => mockName
  | None => "Mock" +:+ typeName
  end.

Definition formattedTypeParams (g : generator) (it : Interface.t)
    (pkgOverride : string) : string * string :=
  match Interface.TypeParams it with
  | [] => ("", "")
  | tps =>
      let long := Join ((λ v, Param.Name v +:+ " " +:+
                           Type_String (Param.Type' v) (packageMap g) pkgOverride)
                        <$> tps) ", " in
      let short := Join (Param.Name <$> tps) ", " in
      ("[" +:+ long +:+ "]", "[" +:+ short +:+ "]")
  end.

(** nameExistsAsPackage returns true if the name exists as a package name. *)
Definition nameExistsAsPackage (ord : MapOrder) (g : generator) (name : string)
    : bool :=
  existsb (λ kv, bool_decide (kv.2 = name)) (rangeMap ord (packageMap g)).

Definition getArgNames (ord : MapOrder) (g : generator) (m : Method.t)
    (in' : bool) : list string :=
  let params := if in' then Method.In m else Method.Out m in
  let argNames :=
    imap (λ i p,
            let name := Param.Name p in
            if bool_decide (name = "") || bool_decide (name = "_")
               || nameExistsAsPackage ord g name
            then "arg" +:+ Itoa (Z.of_nat i) else name) params in
  match Method.Variadic m with
  | Some v =>
      if in' then
        let name := Param.Name v in
        let name :=
          if bool_decide (name = "") || nameExistsAsPackage ord g name
          then "arg" +:+ Itoa (Z.of_nat (length params)) else name in
        argNames ++ [name]
      else argNames
  | None => argNames
  end.

Definition getArgTypes (g : generator) (m : Method.t) (pkgOverride : string)
    (in' : bool) : list string :=
  let params := if in' then Method.In m else Method.Out m in
  let argTypes :=
    (λ p, Type_String (Param.Type' p) (packageMap g) pkgOverride) <$> params in
  match Method.Variadic m with
  | Some v =>
      argTypes ++ ["..." +:+ Type_String (Param.Type' v) (packageMap g) pkgOverride]
  | None => argTypes
  end.

(** [makeArgString]; every caller passes at least as many types as names, so
    [argTypes[i]] is in range. *)
Definition makeArgString (argNames argTypes : list string) : string :=
  Join (imap (λ i name,
                (* specify the type only once for consecutive args of the same type *)
                if bool_decide (i + 1 < length argTypes)%nat
                   && bool_decide (argTypes !!! i = argTypes !!! (i + 1)%nat)
                then name
                else name +:+ " " +:+ argTypes !!! i) argNames) ", ".

(** ** Method bodies (lines 558-784) *)

(** [argNames[:len(argNames)-1]] and [argNames[len(argNames)-1]] *)
Definition allButLast (argNames : list string) : list string :=
  take (length argNames - 1) argNames.

Definition lastOf (argNames : list string) : string :=
  argNames !!! (length argNames - 1)%nat.

(** The loop [for i, t := range rets] of [GenerateMockMethod]. *)
Fixpoint castReturns (idRet : string) (i : nat) (rets : list string)
    (ia : gset string) (g : generator) : list string * gset string * generator :=
  match rets with
  | [] => ([], ia, g)
  | t :: rets' =>
      let '(retName, ia) := allocateIdentifier ia ("ret" +:+ Itoa (Z.of_nat i)) in
      let g := p (retName +:+ ", _ := " +:+ idRet +:+ "[" +:+ Itoa (Z.of_nat i)
                  +:+ "].(" +:+ t +:+ ")") g in
      let '(retNames, ia, g) := castReturns idRet (S i) rets' ia g in
      (retName :: retNames, ia, g)
  end.

(** GenerateMockMethod generates a mock method implementation.
    If non-empty, pkgOverride is the package in which unqualified types reside. *)
Definition GenerateMockMethod (E : Env) (ord : MapOrder) (mockType : string)
    (m : Method.t) (pkgOverride shortTp : string) (g : generator) : generator :=
  let argNames := getArgNames ord g m true in
  let argTypes := getArgTypes g m pkgOverride true in
  let argString := makeArgString argNames argTypes in
  let rets := (λ p, Type_String (Param.Type' p) (packageMap g) pkgOverride)
                <$> Method.Out m in
  let retString := Join rets ", " in
  let retString := if decide (1 < length rets)%nat
                   then "(" +:+ retString +:+ ")" else retString in
  let retString := if decide (retString ≠ "") then " " +:+ retString else retString in
  let ia := newIdentifierAllocator argNames in
  let '(idRecv, ia) := allocateIdentifier ia "m" in
  let g := p ("// " +:+ Method.Name m +:+ " mocks base method.") g in
  let g := p ("func (" +:+ idRecv +:+ " *" +:+ mockType +:+ shortTp +:+ ") "
              +:+ Method.Name m +:+ "(" +:+ argString +:+ ")" +:+ retString +:+ " {") g in
  let g := in_ g in
  let g := p (idRecv +:+ ".ctrl.T.Helper()") g in
  let '(callArgs, ia, g) :=
    match Method.Variadic m with
    | None =>
        (if decide (0 < length argNames)%nat
         then ", " +:+ Join argNames ", " else "", ia, g)
    | Some _ =>
        (* Non-trivial. The generated code must build a []any,
           but the variadic argument may be any type. *)
        let '(idVarArgs, ia) := allocateIdentifier ia "varargs" in
        let '(idVArg, ia) := allocateIdentifier ia "a" in
        let g := p (idVarArgs +:+ " := []any{" +:+ Join (allButLast argNames) ", "
                    +:+ "}") g in
        let g := p ("for _, " +:+ idVArg +:+ " := range " +:+ lastOf argNames
                    +:+ " {") g in
        let g := in_ g in
        let g := p (idVarArgs +:+ " = append(" +:+ idVarArgs +:+ ", " +:+ idVArg
                    +:+ ")") g in
        let g := out g in
        let g := p "}" g in
        (", " +:+ idVarArgs +:+ "...", ia, g)
    end in
  let g :=
    if decide (length (Method.Out m) = 0)%nat then
      p (idRecv +:+ ".ctrl.Call(" +:+ idRecv +:+ ", " +:+ Quote E (Method.Name m)
         +:+ callArgs +:+ ")") g
    else
      let '(idRet, ia) := allocateIdentifier ia "ret" in
      let g := p (idRet +:+ " := " +:+ idRecv +:+ ".ctrl.Call(" +:+ idRecv +:+ ", "
                  +:+ Quote E (Method.Name m) +:+ callArgs +:+ ")") g in
      let '(retNames, _, g) := castReturns idRet 0 rets ia g in
      p ("return " +:+ Join retNames ", ") g in
  let g := out g in
  p "}" g.

Definition GenerateMockRecorderMethod (ord : MapOrder) (intf : Interface.t)
    (m : Method.t) (shortTp : string) (typed : bool) (g : generator) : generator :=
  let mockType := mockName g (Interface.Name intf) in
  let argNames := getArgNames ord g m true in
  let argString :=
    match Method.Variadic m with
    | None => Join argNames ", "
    | Some _ => Join (allButLast argNames) ", "
    end in
  let argString := if decide (argString ≠ "") then argString +:+ " any"
                   else argString in
  let argString :=
    match Method.Variadic m with
    | Some _ =>
        let argString := if decide (argString ≠ "") then argString +:+ ", "
                         else argString in
        argString +:+ lastOf argNames +:+ " ...any"
    | None => argString
    end in
  let ia := newIdentifierAllocator argNames in
  let '(idRecv, ia) := allocateIdentifier ia "mr" in
  let g := p ("// " +:+ Method.Name m +:+ " indicates an expected call of "
              +:+ Method.Name m +:+ ".") g in
  let g :=
    if typed then
      p ("func (" +:+ idRecv +:+ " *" +:+ mockType +:+ "MockRecorder" +:+ shortTp
         +:+ ") " +:+ Method.Name m +:+ "(" +:+ argString +:+ ") *" +:+ mockType
         +:+ Method.Name m +:+ "Call" +:+ shortTp +:+ " {") g
    else
      p ("func (" +:+ idRecv +:+ " *" +:+ mockType +:+ "MockRecorder" +:+ shortTp
         +:+ ") " +:+ Method.Name m +:+ "(" +:+ argString +:+ ") *gomock.Call {") g in
  let g := in_ g in
  let g := p (idRecv +:+ ".mock.ctrl.T.Helper()") g in
  let '(callArgs, g) :=
    match Method.Variadic m with
    | None =>
        (if decide (0 < length argNames)%nat
         then ", " +:+ Join argNames ", " else "", g)
    | Some _ =>
        if decide (length argNames = 1)%nat then
          (* Easy: just use ... to push the arguments through. *)
          (", " +:+ argNames !!! 0%nat +:+ "...", g)
        else
          (* Hard: create a temporary slice. *)
          let '(idVarArgs, _) := allocateIdentifier ia "varargs" in
          let g := p (idVarArgs +:+ " := append([]any{"
                      +:+ Join (allButLast argNames) ", " +:+ "}, "
                      +:+ lastOf argNames +:+ "...)") g in
          (", " +:+ idVarArgs +:+ "...", g)
    end in
  let record :=
    idRecv +:+ ".mock.ctrl.RecordCallWithMethodType(" +:+ idRecv +:+ ".mock, "
    +:+ dq +:+ Method.Name m +:+ dq +:+ ", reflect.TypeOf((*" +:+ mockType +:+ shortTp
    +:+ ")(nil)." +:+ Method.Name m +:+ ")" +:+ callArgs +:+ ")" in
  let g :=
    if typed then
      let g := p ("call := " +:+ record) g in
      p ("return &" +:+ mockType +:+ Method.Name m +:+ "Call" +:+ shortTp
         +:+ "{Call: call}") g
    else p ("return " +:+ record) g in
  let g := out g in
  p "}" g.

Definition GenerateMockReturnCallMethod (ord : MapOrder) (intf : Interface.t)
    (m : Method.t) (pkgOverride longTp shortTp : string) (g : generator)
    : generator :=
  let mockType := mockName g (Interface.Name intf) in
  let argNames := getArgNames ord g m true in
  let retNames := getArgNames ord g m false in
  let argTypes := getArgTypes g m pkgOverride true in
  let retTypes := getArgTypes g m pkgOverride false in
  let argString := Join argTypes ", " in
  let rets := (λ p, Type_String (Param.Type' p) (packageMap g) pkgOverride)
                <$> Method.Out m in
  let retString :=
    match rets with
    | [] => ""
    | [r] => " " +:+ r
    | _ => " (" +:+ Join rets ", " +:+ ")"
    end in
  let ia := newIdentifierAllocator argNames in
  let '(idRecv, _) := allocateIdentifier ia "c" in
  let recvStructName := mockType +:+ Method.Name m in
  let g := p ("// " +:+ mockType +:+ Method.Name m +:+ "Call wrap *gomock.Call") g in
  let g := p ("type " +:+ mockType +:+ Method.Name m +:+ "Call" +:+ longTp
              +:+ " struct{") g in
  let g := in_ g in
  let g := p "*gomock.Call" g in
  let g := out g in
  let g := p "}" g in
  let g := p "// Return rewrite *gomock.Call.Return" g in
  let g := p ("func (" +:+ idRecv +:+ " *" +:+ recvStructName +:+ "Call" +:+ shortTp
              +:+ ") Return(" +:+ makeArgString retNames retTypes +:+ ") *"
              +:+ recvStructName +:+ "Call" +:+ shortTp +:+ " {") g in
  let g := in_ g in
  let retArgs := if decide (0 < length retNames)%nat then Join retNames ", "
                 else "" in
  let g := p (idRecv +:+ ".Call =  " +:+ idRecv +:+ ".Call.Return(" +:+ retArgs
              +:+ ")") g in
  let g := p ("return " +:+ idRecv) g in
  let g := out g in
  let g := p "}" g in
  let g := p "// Do rewrite *gomock.Call.Do" g in
  let g := p ("func (" +:+ idRecv +:+ " *" +:+ recvStructName +:+ "Call" +:+ shortTp
              +:+ ") Do(f func(" +:+ argString +:+ ")" +:+ retString +:+ ") *"
              +:+ recvStructName +:+ "Call" +:+ shortTp +:+ " {") g in
  let g := in_ g in
  let g := p (idRecv +:+ ".Call = " +:+ idRecv +:+ ".Call.Do(f)") g in
  let g := p ("return " +:+ idRecv) g in
  let g := out g in
  let g := p "}" g in
  let g := p "// DoAndReturn rewrite *gomock.Call.DoAndReturn" g in
  let g := p ("func (" +:+ idRecv +:+ " *" +:+ recvStructName +:+ "Call" +:+ shortTp
              +:+ ") DoAndReturn(f func(" +:+ argString +:+ ")" +:+ retString
              +:+ ") *" +:+ recvStructName +:+ "Call" +:+ shortTp +:+ " {") g in
  let g := in_ g in
  let g := p (idRecv +:+ ".Call = " +:+ idRecv +:+ ".Call.DoAndReturn(f)") g in
  let g := p ("return " +:+ idRecv) g in
  let g := out g in
  p "}" g.

(** [byMethodName.Less] is [b[i].Name < b[j].Name]; [sort.Sort] leaves no
    element before one that is less than it, that is, consecutive names are
    in [≤] order. *)
Definition byMethodName (a b : Method.t) : Prop :=
  String.le (Method.Name a) (Method.Name b).

#[global] Instance byMethodName_dec : RelDecision byMethodName.
Proof. intros a b. unfold byMethodName. apply _. Defined.

(** [sort.Sort(byMethodName(intf.Methods))]. The library sort is not stable;
    method names are unique within an interface (spec section 3), and then
    every sorting algorithm produces this same sequence
    ([sortMethods_unique]). *)
Definition sortMethods (ms : list Method.t) : list Method.t :=
  merge_sort byMethodName ms.

(** The text one method contributes: the body of the loop of
    [GenerateMockMethods]. *)
Definition GenerateMethodBlocks (E : Env) (ord : MapOrder) (mockType : string)
    (intf : Interface.t) (pkgOverride longTp shortTp : string) (typed : bool)
    (g : generator) (m : Method.t) : generator :=
  let g := p "" g in
  let g := GenerateMockMethod E ord mockType m pkgOverride shortTp g in
  let g := p "" g in
  let g := GenerateMockRecorderMethod ord intf m shortTp typed g in
  if typed then
    let g := p "" g in
    GenerateMockReturnCallMethod ord intf m pkgOverride longTp shortTp g
  else g.

(** [GenerateMockMethods]: the interface comes back with its methods in the
    order the sort left them in. *)
Definition GenerateMockMethods (E : Env) (ord : MapOrder) (mockType : string)
    (intf : Interface.t) (pkgOverride longTp shortTp : string) (typed : bool)
    (g : generator) : Interface.t * generator :=
  let intf := Interface.withMethods intf (sortMethods (Interface.Methods intf)) in
  (intf,
   foldl (GenerateMethodBlocks E ord mockType intf pkgOverride longTp shortTp typed)
     g (Interface.Methods intf)).

(** Lines 516-551: the mock struct, the recorder struct, the constructor
    and [EXPECT]. *)
Definition writeInterfaceHead (mockType : string) (intf : Interface.t)
    (longTp shortTp : string) (g : generator) : generator :=
  let g := p "" g in
  let g := p ("// " +:+ mockType +:+ " is a mock of " +:+ Interface.Name intf
              +:+ " interface.") g in
  let g := p ("type " +:+ mockType +:+ longTp +:+ " struct {") g in
  let g := in_ g in
  let g := p "ctrl     *gomock.Controller" g in
  let g := p ("recorder *" +:+ mockType +:+ "MockRecorder" +:+ shortTp) g in
  let g := p "isgomock struct{}" g in
  let g := out g in
  let g := p "}" g in
  let g := p "" g in
  let g := p ("// " +:+ mockType +:+ "MockRecorder is the mock recorder for "
              +:+ mockType +:+ ".") g in
  let g := p ("type " +:+ mockType +:+ "MockRecorder" +:+ longTp +:+ " struct {") g in
  let g := in_ g in
  let g := p ("mock *" +:+ mockType +:+ shortTp) g in
  let g := out g in
  let g := p "}" g in
  let g := p "" g in
  let g := p ("// New" +:+ mockType +:+ " creates a new mock instance.") g in
  let g := p ("func New" +:+ mockType +:+ longTp +:+ "(ctrl *gomock.Controller) *"
              +:+ mockType +:+ shortTp +:+ " {") g in
  let g := in_ g in
  let g := p ("mock := &" +:+ mockType +:+ shortTp +:+ "{ctrl: ctrl}") g in
  let g := p ("mock.recorder = &" +:+ mockType +:+ "MockRecorder" +:+ shortTp
              +:+ "{mock}") g in
  let g := p "return mock" g in
  let g := out g in
  let g := p "}" g in
  let g := p "" g in
  (* XXX: possible name collision here if someone has EXPECT in their interface. *)
  let g := p "// EXPECT returns an object that allows the caller to indicate expected use." g in
  let g := p ("func (m *" +:+ mockType +:+ shortTp +:+ ") EXPECT() *" +:+ mockType
              +:+ "MockRecorder" +:+ shortTp +:+ " {") g in
  let g := in_ g in
  let g := p "return m.recorder" g in
  let g := out g in
  p "}" g.

Definition GenerateMockInterface (E : Env) (ord : MapOrder) (flags : Flags)
    (intf : Interface.t) (outputPackagePath : string) (g : generator)
    : Interface.t * generator :=
  let mockType := mockName g (Interface.Name intf) in
  let '(longTp, shortTp) := formattedTypeParams g intf outputPackagePath in
  let g := writeInterfaceHead mockType intf longTp shortTp g in
  GenerateMockMethods E ord mockType intf outputPackagePath longTp shortTp
    (typed flags) g.

(** ** [Generate] (lines 331-476) *)

(** Lines 337-370: copyright block, build constraint, provenance and
    command comments. *)
Definition writeHeader (E : Env) (flags : Flags) (g : generator) : generator :=
  let g :=
    if decide (copyrightHeader g ≠ "") then
      let lines := Split (copyrightHeader g) "010"%char in
      let g := foldl (λ g line, p ("// " +:+ line) g) g lines in
      p "" g
    else g in
  let g :=
    if decide (buildConstraint g ≠ "") then
      let g := p ("//go:build " +:+ buildConstraint g) g in
      p "" g
    else g in
  let g := p "// Code generated by MockGen. DO NOT EDIT." g in
  let g :=
    if writeSourceComment flags then
      if decide (filename g ≠ "") then p ("// Source: " +:+ filename g) g
      else p ("// Source: " +:+ srcPackage g +:+ " (interfaces: "
              +:+ srcInterfaces g +:+ ")") g
    else g in
  if writeCmdComment flags then
    let g := p "//" g in
    let g := p "// Generated by this command:" g in
    let g := p "//" g in
    (* only log the name of the executable, not the full path *)
    let name := filepath_Base E (Args0 E) in
    let name := if decide (GOOS E = "windows") then TrimSuffix name ".exe"
                else name in
    let g := p ("//" +:+ tab +:+ Join (name :: Args1 E) " ") g in
    p "//" g
  else g.

(** Lines 373-383: all required imports. *)
Definition requiredImports (pkg : Package.t) : gset string :=
  let im := Package.Imports pkg in
  let im := {[gomockImportPath]} ∪ im in
  (* Only import reflect if it's used. *)
  if existsb (λ intf, bool_decide (0 < length (Interface.Methods intf))%nat)
       (Package.Interfaces pkg)
  then {["reflect"]} ∪ im else im.

(** Lines 386-392: sort keys to make import alias generation predictable. *)
Definition sortedImportPaths (ord : MapOrder) (im : gset string) : list string :=
  merge_sort String.le (rangeSet ord im).

(** Lines 396-404: the [-imports] flag, a comma-separated list of
    [name=path]. *)
Definition parseDefinedImports (flag : string) : option (gmap string string) :=
  if decide (flag ≠ "") then
    foldl (λ acc kv,
             definedImports ← acc;
             '(k, v) ← cutAt "="%char kv;
             Some (if decide (k ≠ ".") then <[v := k]> definedImports
                   else definedImports))
      (Some ∅) (Split flag ","%char)
  else Some ∅.

(** The loop of line 426, entered with the current [pkgName] and [i]. *)
Fixpoint uniqueNameLoop (fuel : nat) (localNames : gset string)
    (base pkgName : string) (i : Z) : option string :=
  match fuel with
  | O => None
  | S fuel' =>
      if bool_decide (pkgName ∈ localNames) || IsKeyword pkgName
         || bool_decide (pkgName = "any")
      then uniqueNameLoop fuel' localNames base (base +:+ Itoa i) (i + 1)
      else Some pkgName
  end.

(** The names the loop of line 426 refuses. *)
Definition refusedNames (localNames : gset string) : gset string :=
  localNames ∪ list_to_set keywords ∪ {["any"]}.

(** Lines 425-429. The loop ends within [size (refusedNames localNames) + 2]
    iterations ([uniqueNameLoop_terminates]), so the last branch is never
    taken. *)
Definition uniqueName (localNames : gset string) (base pkgName : string) : string :=
  match uniqueNameLoop (S (S (size (refusedNames localNames)))) localNames
          base pkgName 0 with
  | Some name => name
  | None => pkgName
  end.

(** Lines 408-438: one iteration of [for _, pth := range sortedPaths], on
    [g.packageMap] and [localNames]. *)
Definition resolveStep (E : Env) (packagesName definedImports : gmap string string)
    (pkg : Package.t) (outputPackagePath : string)
    (st : gmap string string * gset string) (pth : string)
    : gmap string string * gset string :=
  let '(packageMap, localNames) := st in
  let base := match packagesName !! pth with
              | Some base => base
              | None => sanitize E (Base pth)
              end in
  (* Local names for an imported package can usually be the basename of the
     import path. A couple of situations don't permit that: try base0, base1, ... *)
  let pkgName := match definedImports !! pth with
                 | Some name => name
                 | None => base
                 end in
  let pkgName := uniqueName localNames base pkgName in
  (* Avoid importing package if source pkg == output pkg *)
  if bool_decide (pth = Package.PkgPath pkg)
     && bool_decide (outputPackagePath = Package.PkgPath pkg)
  then st
  else (<[pth := pkgName]> packageMap, {[pkgName]} ∪ localNames).

Definition resolveAliases (E : Env) (packagesName definedImports : gmap string string)
    (pkg : Package.t) (outputPackagePath : string) (sortedPaths : list string)
    : gmap string string :=
  (foldl (resolveStep E packagesName definedImports pkg outputPackagePath)
     (∅, ∅) sortedPaths).1.

(** Lines 453-458: one import line per entry of [g.packageMap], in the order
    [range] visits the map. *)
Definition writeAliasedImports (E : Env) (outputPackagePath : string)
    (entries : list (string * string)) (g : generator) : generator :=
  foldl (λ g kv,
           let '(pkgPath, pkgName) := kv in
           if decide (pkgPath = outputPackagePath) then g
           else p (pkgName +:+ " " +:+ Quote E pkgPath) g) g entries.

(** Lines 459-461. *)
Definition writeDotImports (E : Env) (dotImports : list string) (g : generator)
    : generator :=
  foldl (λ g pkgPath, p (". " +:+ Quote E pkgPath) g) g dotImports.

(** Lines 444-450: the blank line, the package comment and the package
    clause. *)
Definition writePackageClause (flags : Flags) (outputPkgName : string)
    (g : generator) : generator :=
  let g := p "" g in
  let g := if writePkgComment flags
           then p ("// Package " +:+ outputPkgName
                   +:+ " is a generated GoMock package.") g
           else g in
  let g := p ("package " +:+ outputPkgName) g in
  p "" g.

(** Lines 465-467. *)
Definition writeDirective (E : Env) (flags : Flags) (g : generator) : generator :=
  if writeGenerateDirective flags
  then p ("//go:generate " +:+ Join (Args0 E :: Args1 E) " ") g
  else g.

(** Lines 469-473. *)
Fixpoint GenerateMockInterfaces (E : Env) (ord : MapOrder) (flags : Flags)
    (intfs : list Interface.t) (outputPackagePath : string) (g : generator)
    : list Interface.t * generator :=
  match intfs with
  | [] => ([], g)
  | intf :: rest =>
      let '(intf, g) := GenerateMockInterface E ord flags intf outputPackagePath g in
      let '(rest, g) := GenerateMockInterfaces E ord flags rest outputPackagePath g in
      (intf :: rest, g)
  end.

(** The output package path [Generate] works with (lines 332-335). *)
Definition effectiveOutputPackagePath (flags : Flags) (pkg : Package.t)
    (outputPkgName outputPackagePath : string) : string :=
  if bool_decide (outputPkgName ≠ Package.Name pkg)
     && bool_decide (selfPackage flags = "")
  then (* reset outputPackagePath if it's not passed in through -self_package *)
    ""
  else outputPackagePath.

(** [g.Generate(pkg, outputPkgName, outputPackagePath)]: the model and the
    generator as the call leaves them; [None] when the [-imports] flag makes
    the call panic. The error result is always [nil]. *)
Definition Generate (E : Env) (ord : MapOrder) (flags : Flags) (g : generator)
    (pkg : Package.t) (outputPkgName outputPackagePath : string)
    : option (Package.t * generator) :=
  let outputPackagePath :=
    effectiveOutputPackagePath flags pkg outputPkgName outputPackagePath in
  let g := writeHeader E flags g in
  (* Get all required imports, and generate unique names for them all. *)
  let im := requiredImports pkg in
  let sortedPaths := sortedImportPaths ord im in
  let packagesName := createPackageMap E sortedPaths in
  definedImports ← parseDefinedImports (imports flags);
  let g := set_packageMap g
             (resolveAliases E packagesName definedImports pkg outputPackagePath
                sortedPaths) in
  let g := writePackageClause flags outputPkgName g in
  let g := p "import (" g in
  let g := in_ g in
  let g := writeAliasedImports E outputPackagePath (rangeMap ord (packageMap g)) g in
  let g := writeDotImports E (Package.DotImports pkg) g in
  let g := out g in
  let g := p ")" g in
  let g := writeDirective E flags g in
  let '(intfs, g) :=
    GenerateMockInterfaces E ord flags (Package.Interfaces pkg) outputPackagePath g in
  Some (Package.withInterfaces pkg intfs, g).


(** ** The flags [-mock_names] and [-exclude_interfaces] (lines 214-242) *)

(** [parseMockNames]; [None] when [log.Fatalf] ends the program.
    [strings.SplitN(kv, "=", 2)] has two parts exactly when [kv] has a [=],
    and then they are [cutAt]'s. *)
Definition parseMockNames (names : string) : option (gmap string string) :=
  foldl (λ acc kv,
           mocksMap ← acc;
           '(k, v) ← cutAt "="%char kv;
           if decide (v = "") then None else Some (<[k := v]> mocksMap))
    (Some ∅) (Split names ","%char).

(** [parseExcludeInterfaces]; [None] is the [nil] map. *)
Definition parseExcludeInterfaces (names : string) : option (gset string) :=
  let splitNames := Split names ","%char in
  let namesSet :=
    foldl (λ namesSet name,
             if decide (name = "") then namesSet else {[name]} ∪ namesSet)
      (∅ : gset string) splitNames in
  if decide (size namesSet = 0)%nat then None else Some namesSet.

(** Lines 131-136 of [main]: the name of the output package, [packageOut]
    being the flag [-package]. *)
Definition outputPackageName (E : Env) (packageOut : string) (pkg : Package.t)
    : string :=
  if decide (packageOut = "") then
    (* pkg.Name in package mode is the base name of the import path, which
       might have characters that are illegal to have in package names. *)
    "mock_" +:+ sanitize E (Package.Name pkg)
  else packageOut.

(** ** Sample inputs *)

(** The order in which [map_to_list] and [elements] enumerate, and the
    opposite one. *)
Definition canonicalOrder : MapOrder :=
  {| rangeMap := map_to_list;
     rangeMap_perm := λ m, reflexivity (map_to_list m);
     rangeSet := elements;
     rangeSet_perm := λ s, reflexivity (elements s) |}.


(** An environment in which [go list] reports nothing, no rune above Latin-1
    is a letter or a digit, quoting adds the two quotes (as it does for a
    path of printable ASCII without quote or backslash) and the formatter
    hands the text back. *)
Definition plainEnv : Env :=
  {| LetterAboveLatin1 := λ _, false;
     DigitAboveLatin1 := λ _, false;
     Quote := λ s, dq +:+ s +:+ dq;
     Args0 := "mockgen";
     Args1 := ["example.com/foo"; "Foo"];
     GOOS := "linux";
     filepath_Base := Base;
     createPackageMap := λ _, ∅;
     Process := λ _ src, Some src |}.

Definition plainFlags : Flags :=
  {| selfPackage := ""; writeCmdComment := false; writePkgComment := true;
     writeSourceComment := true; writeGenerateDirective := false;
     typed := false; imports := "" |}.

(** The generator as [main] builds it. *)
Definition newGenerator : generator :=
  {| buf := []; indent := ""; mockNames := ∅; filename := "";
     destination := ""; srcPackage := "example.com/foo"; srcInterfaces := "Foo";
     copyrightHeader := ""; buildConstraint := ""; packageMap := ∅ |}.

Definition param (name type : string) : Param.t :=
  {| Param.Name := name; Param.Type' := PredeclaredType type |}.

Definition method (name : string) : Method.t :=
  {| Method.Name := name; Method.In := []; Method.Out := [];
     Method.Variadic := None |}.

(** A package whose one interface lists [Write] before [Close]. *)
Definition connPkg : Package.t :=
  {| Package.Name := "foo"; Package.PkgPath := "example.com/foo";
     Package.Interfaces :=
       [ {| Interface.Name := "Conn";
            Interface.Methods := [method "Write"; method "Close"];
            Interface.TypeParams := [] |} ];
     Package.DotImports := []; Package.Imports := ∅ |}.

(** A package that needs two packages called [template] and one whose last
    path segment is a keyword. *)
Definition templatesPkg : Package.t :=
  {| Package.Name := "foo"; Package.PkgPath := "example.com/foo";
     Package.Interfaces :=
       [ {| Interface.Name := "Renderer"; Interface.Methods := [method "Render"];
            Interface.TypeParams := [] |} ];
     Package.DotImports := [];
     Package.Imports := {["html/template"; "text/template"; "example.com/case"]} |}.

(** A package that declares [Writer] before [Closer]. *)
Definition writerCloserPkg : Package.t :=
  {| Package.Name := "foo"; Package.PkgPath := "example.com/foo";
     Package.Interfaces :=
       [ {| Interface.Name := "Writer"; Interface.Methods := [method "Write"];
            Interface.TypeParams := [] |};
         {| Interface.Name := "Closer"; Interface.Methods := [method "Close"];
            Interface.TypeParams := [] |} ];
     Package.DotImports := []; Package.Imports := ∅ |}.

(** A package whose types come from the package itself, with two dot
    imports, one of them twice. *)
Definition selfPkg : Package.t :=
  {| Package.Name := "foo"; Package.PkgPath := "example.com/foo";
     Package.Interfaces :=
       [ {| Interface.Name := "Store";
            Interface.Methods :=
              [ {| Method.Name := "Put";
                   Method.In := [ {| Param.Name := "item";
                                     Param.Type' := NamedType "example.com/foo" "Item" |} ];
                   Method.Out := []; Method.Variadic := None |} ];
            Interface.TypeParams := [] |} ];
     Package.DotImports := ["example.com/dot"; "example.com/dot"; "example.com/foo"];
     Package.Imports := {["example.com/foo"]} |}.

(** The same package without dot imports. *)
Definition itemPkg : Package.t := Package.withDotImports selfPkg [].

(** [Add(a, b string, c ...int) error], and an interface with that method. *)
Definition addMethod : Method.t :=
  {| Method.Name := "Add";
     Method.In := [param "a" "string"; param "b" "string"];
     Method.Out := [param "" "error"];
     Method.Variadic := Some (param "c" "int") |}.

Definition calcIntf : Interface.t :=
  {| Interface.Name := "Calc"; Interface.Methods := [addMethod];
     Interface.TypeParams := [] |}.

(** [Log(_ ...any)]: the variadic parameter carries the blank name. *)
Definition logMethod : Method.t :=
  {| Method.Name := "Log"; Method.In := []; Method.Out := [];
     Method.Variadic := Some (param "_" "any") |}.

(** ** Definitions used in the statements *)

(** The names [allocateIdentifier] tries, in order: [want] first (numbered 1
    here), then [want_2], [want_3], ... *)
Definition candidate (want : string) (k : Z) : string :=
  if decide (k < 2) then want else want +:+ "_" +:+ Itoa k.

(** Appending the writes [ls]. *)
Definition emit (ls : list string) (g : generator) : generator :=
  set_buf g (buf g ++ ls).

(** The writes of each function, started on an empty buffer. *)
Definition methodText (E : Env) (ord : MapOrder) (mockType : string) (m : Method.t)
    (pkgOverride shortTp : string) (g : generator) : list string :=
  buf (GenerateMockMethod E ord mockType m pkgOverride shortTp (set_buf g [])).

Definition recorderText (ord : MapOrder) (intf : Interface.t) (m : Method.t)
    (shortTp : string) (typed : bool) (g : generator) : list string :=
  buf (GenerateMockRecorderMethod ord intf m shortTp typed (set_buf g [])).

Definition returnCallText (ord : MapOrder) (intf : Interface.t) (m : Method.t)
    (pkgOverride longTp shortTp : string) (g : generator) : list string :=
  buf (GenerateMockReturnCallMethod ord intf m pkgOverride longTp shortTp
         (set_buf g [])).

(** [castReturns] without the generator: the names, the allocator and the
    lines written at indentation [ind]. *)
Fixpoint castReturnsLines (ind idRet : string) (i : nat) (rets : list string)
    (ia : gset string) : list string * gset string * list string :=
  match rets with
  | [] => ([], ia, [])
  | t :: rets' =>
      let '(retName, ia) := allocateIdentifier ia ("ret" +:+ Itoa (Z.of_nat i)) in
      let line := ind +:+ (retName +:+ ", _ := " +:+ idRet +:+ "[" +:+ Itoa (Z.of_nat i)
                           +:+ "].(" +:+ t +:+ ")") +:+ nl in
      let '(retNames, ia, lines) := castReturnsLines ind idRet (S i) rets' ia in
      (retName :: retNames, ia, line :: lines)
  end.

(** The writes for one method: the forwarding method, the recorder method
    and, when asked for, the typed call wrapper. *)
Definition methodBlocksText (E : Env) (ord : MapOrder) (mockType : string)
    (intf : Interface.t) (pkgOverride longTp shortTp : string) (typed : bool)
    (g : generator) (m : Method.t) : list string :=
  buf (GenerateMethodBlocks E ord mockType intf pkgOverride longTp shortTp typed
         (set_buf g []) m).

(** The interface as [GenerateMockMethods] leaves it. *)
Definition sortedInterface (intf : Interface.t) : Interface.t :=
  Interface.withMethods intf (sortMethods (Interface.Methods intf)).

(** The declarations that open the block of an interface. *)
Definition interfaceHeadText (g : generator) (intf : Interface.t)
    (longTp shortTp : string) : list string :=
  buf (writeInterfaceHead (mockName g (Interface.Name intf)) intf longTp shortTp
         (set_buf g [])).

(** The writes for one interface. *)
Definition interfaceText (E : Env) (ord : MapOrder) (flags : Flags)
    (outputPackagePath : string) (g : generator) (intf : Interface.t)
    : list string :=
  buf (GenerateMockInterface E ord flags intf outputPackagePath (set_buf g [])).2.

Definition headerText (E : Env) (flags : Flags) (g : generator) : list string :=
  buf (writeHeader E flags (set_buf g [])).

Definition packageClauseText (flags : Flags) (outputPkgName : string)
    (g : generator) : list string :=
  buf (writePackageClause flags outputPkgName (set_buf g [])).

Definition directiveText (E : Env) (flags : Flags) (g : generator) : list string :=
  buf (writeDirective E flags (set_buf g [])).

(** The line of the import block for the path [kv.1] under the alias [kv.2],
    and the line of a dot import, at indentation [ind]. *)
Definition aliasedImportLine (E : Env) (ind : string) (kv : string * string) : string :=
  ind +:+ (kv.2 +:+ " " +:+ Quote E kv.1) +:+ nl.

Definition dotImportLine (E : Env) (ind : string) (pkgPath : string) : string :=
  ind +:+ (". " +:+ Quote E pkgPath) +:+ nl.

(** The alias table [Generate] builds (lines 372-438). *)
Definition resolvedPackageMap (E : Env) (ord : MapOrder) (flags : Flags)
    (pkg : Package.t) (outputPkgName outputPackagePath : string)
    (definedImports : gmap string string) : gmap string string :=
  let sortedPaths := sortedImportPaths ord (requiredImports pkg) in
  resolveAliases E (createPackageMap E sortedPaths) definedImports pkg
    (effectiveOutputPackagePath flags pkg outputPkgName outputPackagePath)
    sortedPaths.

(** The entries of the alias table that get an import line (line 454). *)
Definition importedEntries (outputPackagePath : string)
    (entries : list (string * string)) : list (string * string) :=
  filter (λ kv, kv.1 ≠ outputPackagePath) entries.

(** What the loop over the sorted paths maintains: every alias handed out is
    recorded in [localNames], is neither a keyword nor [any], and belongs to
    one path only. *)
Definition aliasesWellFormed (st : gmap string string * gset string) : Prop :=
  (∀ pth a, st.1 !! pth = Some a → a ∈ st.2 ∧ IsKeyword a = false ∧ a ≠ "any")
  ∧ (∀ p1 p2 a, st.1 !! p1 = Some a → st.1 !! p2 = Some a → p1 = p2).

(** Methods in strictly ascending name order. *)
Definition strictlyAscending (ms : list Method.t) : Prop :=
  Sorted byMethodName ms ∧ NoDup (Method.Name <$> ms).

Definition methodNames (pkg : Package.t) : list (list string) :=
  (λ intf, Method.Name <$> Interface.Methods intf) <$> Package.Interfaces pkg.

(** The import block: the opening line, one line per alias-table entry in
    the order [range] visits the table, one line per dot import in the
    model's order, the closing line. *)
Definition importBlockText (E : Env) (ind : string)
    (entries : list (string * string)) (dotImports : list string) : list string :=
  [ind +:+ "import (" +:+ nl]
  ++ (aliasedImportLine E (ind +:+ tab) <$> entries)
  ++ (dotImportLine E (ind +:+ tab) <$> dotImports)
  ++ [ind +:+ ")" +:+ nl].



(** Whether [sanitize] keeps the rune [r] at position [i], and what it
    writes for it. *)
Definition keptAt (E : Env) (i : nat) (r : rune) : bool :=
  match i with
  | O => IsLetter E r || (r =? underscore)
  | S _ => IsLetter E r || IsDigit E r || (r =? underscore)
  end.

Definition sanitizedRune (E : Env) (i : nat) (r : rune) : string :=
  if keptAt E i r then runeString r else "_".

(** What [makeArgString] writes for the argument [name] at position [i]. *)
Definition argEntry (argTypes : list string) (i : nat) (name : string) : string :=
  if bool_decide (i + 1 < length argTypes)%nat
     && bool_decide (argTypes !!! i = argTypes !!! (i + 1)%nat)
  then name
  else name +:+ " " +:+ argTypes !!! i.

(** Whether the byte [c] occurs in [s]. *)
Fixpoint hasByte (c : ascii) (s : string) : bool :=
  match s with
  | "" => false
  | String a s' => bool_decide (a = c) || hasByte c s'
  end.

(** A flag value: the pairs [k=v], separated by commas. *)
Definition pairsFlag (pairs : list (string * string)) : string :=
  Join ((λ kv, kv.1 +:+ "=" +:+ kv.2) <$> pairs) ",".

(** The generator with the mock names of the flag [-mock_names], as line
    176 sets them. *)
Definition withMockNames (g : generator) (names : gmap string string) : generator :=
  {| buf := buf g; indent := indent g; mockNames := names; filename := filename g;
     destination := destination g; srcPackage := srcPackage g;
     srcInterfaces := srcInterfaces g; copyrightHeader := copyrightHeader g;
     buildConstraint := buildConstraint g; packageMap := packageMap g |}.

(** Strings of bytes below 0x80, and the identifiers among them: a letter
    or an underscore, then letters, digits and underscores. *)
Definition asciiOnly (s : string) : bool :=
  forallb (λ c, byteZ c <? 0x80) (String.list_ascii_of_string s).

Definition identifierByte (i : nat) (c : ascii) : bool :=
  let b := byteZ c in
  within 0x41 0x5A b || within 0x61 0x7A b || (b =? 0x5F)
  || match i with O => false | S _ => within 0x30 0x39 b end.

Definition isIdentifier (s : string) : bool :=
  bool_decide (s ≠ "")
  && forallb id (imap identifierByte (String.list_ascii_of_string s)).

(** What [sanitize] writes for the runes of [s] when they are not the first
    ones. *)
Definition sanitizedTail (E : Env) (s : string) : string :=
  foldr String.app "" (imap (λ i, sanitizedRune E (S i)) (runes s)).

(** The copyright block and the build constraint as [Generate] writes them
    at indentation [ind], each followed by an empty line; nothing for the
    empty string. *)
Definition copyrightBlock (ind header : string) : list string :=
  if decide (header ≠ "") then
    ((λ line, ind +:+ ("// " +:+ line) +:+ nl) <$> Split header "010"%char)
    ++ [ind +:+ "" +:+ nl]
  else [].

Definition constraintBlock (ind constraint : string) : list string :=
  if decide (constraint ≠ "") then
    [ind +:+ ("//go:build " +:+ constraint) +:+ nl; ind +:+ "" +:+ nl]
  else [].

(** The comments on the source and on the command line. *)
Definition provenanceLines (E : Env) (flags : Flags)
    (ind filename srcPackage srcInterfaces : string) : list string :=
  (if writeSourceComment flags then
     [ind +:+ (if decide (filename ≠ "") then "// Source: " +:+ filename
               else "// Source: " +:+ srcPackage +:+ " (interfaces: "
                    +:+ srcInterfaces +:+ ")") +:+ nl]
   else [])
  ++ (if writeCmdComment flags then
        [ ind +:+ "//" +:+ nl;
          ind +:+ "// Generated by this command:" +:+ nl;
          ind +:+ "//" +:+ nl;
          ind +:+ ("//" +:+ tab
                   +:+ Join ((if decide (GOOS E = "windows")
                              then TrimSuffix (filepath_Base E (Args0 E)) ".exe"
                              else filepath_Base E (Args0 E)) :: Args1 E) " ") +:+ nl;
          ind +:+ "//" +:+ nl ]
      else []).

(** The model with every type replaced by its rendering: the predeclared
    type whose name is what the type's [String] method returns for the
    alias table [pm] and the suppressed package [pkgOverride]. *)
Definition renderParam (pm : gmap string string) (pkgOverride : string)
    (v : Param.t) : Param.t :=
  {| Param.Name := Param.Name v;
     Param.Type' := PredeclaredType (Type_String (Param.Type' v) pm pkgOverride) |}.

Definition renderMethod (pm : gmap string string) (pkgOverride : string)
    (m : Method.t) : Method.t :=
  {| Method.Name := Method.Name m;
     Method.In := renderParam pm pkgOverride <$> Method.In m;
     Method.Out := renderParam pm pkgOverride <$> Method.Out m;
     Method.Variadic := renderParam pm pkgOverride <$> Method.Variadic m |}.

Definition renderInterface (pm : gmap string string) (pkgOverride : string)
    (intf : Interface.t) : Interface.t :=
  {| Interface.Name := Interface.Name intf;
     Interface.Methods := renderMethod pm pkgOverride <$> Interface.Methods intf;
     Interface.TypeParams := renderParam pm pkgOverride <$> Interface.TypeParams intf |}.

(** A stack of [merge_sort] with [f] applied to its elements. *)
Definition mapStack {A B} (f : A → B) (st : list (option (list A)))
    : list (option (list B)) :=
  fmap (M:=list) (fmap (M:=option) (fmap (M:=list) f)) st.

(** * Properties *)

(** ** Strings *)

Lemma app_cons (a : ascii) (s t : string) : String a s +:+ t = String a (s +:+ t).
Proof. reflexivity. Qed.

Lemma app_nil_r (s : string) : s +:+ "" = s.
Proof. induction s as [|a s IH]; [done|]. by rewrite app_cons, IH. Qed.

Lemma app_assoc_s (s t u : string) : (s +:+ t) +:+ u = s +:+ t +:+ u.
Proof. induction s as [|a s IH]; [done|]. by rewrite !app_cons, IH. Qed.

Lemma length_app_s (s t : string) :
  String.length (s +:+ t) = (String.length s + String.length t)%nat.
Proof. induction s as [|a s IH]; [done|]. rewrite app_cons. simpl. by rewrite IH. Qed.

Lemma app_ne_self (s t : string) : t ≠ "" → s +:+ t ≠ s.
Proof.
  intros Ht Heq. apply (f_equal String.length) in Heq.
  rewrite length_app_s in Heq. destruct t; [done|simpl in Heq; lia].
Qed.

(** ** The identifier allocator *)

Lemma candidate_inj (want : string) (j k : Z) :
  1 ≤ j → 1 ≤ k → candidate want j = candidate want k → j = k.
Proof.
  unfold candidate. intros Hj Hk.
  repeat case_decide; intros Heq; [lia| | |].
  - symmetry in Heq. by apply app_ne_self in Heq.
  - by apply app_ne_self in Heq.
  - apply (inj (String.app want)), (inj (String.app "_")) in Heq.
    by apply (inj pretty) in Heq.
Qed.

(** The loop, entered to try candidate number [i - 1], returns the first free
    candidate from there on, provided the fuel exceeds the number of taken
    names that are still ahead. *)
Lemma allocateLoop_run (want : string) (o : gset string) :
  ∀ (fuel : nat) (X : gset string) (i : Z),
    2 ≤ i →
    (∀ j, i - 1 ≤ j → candidate want j ∈ o → candidate want j ∈ X) →
    (size X < fuel)%nat →
    ∃ N, (i - 1 ≤ N)
       ∧ allocateLoop fuel o want (candidate want (i - 1)) i
         = Some (candidate want N, {[candidate want N]} ∪ o)
       ∧ (candidate want N ∉ o)
       ∧ ∀ M, i - 1 ≤ M < N → candidate want M ∈ o.
Proof.
  induction fuel as [|fuel IH]; intros X i Hi HX Hsize; [lia|].
  simpl. case_decide as Hin.
  - destruct (IH (X ∖ {[candidate want (i - 1)]}) (i + 1)) as (N & HN & Hrun & Hfree & Hbelow).
    + lia.
    + intros j Hj Hjo. apply elem_of_difference. split; [apply HX; [lia|done]|].
      rewrite elem_of_singleton. intros Heq. apply candidate_inj in Heq; lia.
    + assert (X ∖ {[candidate want (i - 1)]} ⊂ X) as Hsub.
      { apply subset_difference_elem_of, HX; [lia|done]. }
      apply subset_size in Hsub. lia.
    + exists N. split; [lia|]. split; [|split; [done|]].
      * replace (i + 1 - 1) with i in Hrun by lia.
        unfold candidate at 1 in Hrun. rewrite decide_False in Hrun by lia. done.
      * intros M HM. destruct (decide (M = i - 1)) as [->|]; [done|].
        apply Hbelow. lia.
  - exists (i - 1). split; [lia|]. split; [done|]. split; [done|]. intros M HM. lia.
Qed.

Lemma allocateLoop_terminates (o : gset string) (want : string) (fuel : nat) :
  (size o < fuel)%nat → is_Some (allocateLoop fuel o want want 2).
Proof.
  intros Hfuel.
  destruct (allocateLoop_run want o fuel o 2) as (N & _ & Hrun & _); [lia|done..|].
  change (candidate want (2 - 1)) with want in Hrun. by rewrite Hrun.
Qed.

(** C7. [allocateIdentifier(want)] on the taken set [o]: the loop ends as soon
    as its fuel exceeds [size o] (it has no other exit), and the call returns
    [want] when [want] is free, otherwise [want_N] for the least [N >= 2]
    whose [want_N] is free; the returned name was free and is in the set
    afterwards. *)
Theorem allocateIdentifier_spec (o : gset string) (want : string) (fuel : nat) :
  (size o < fuel)%nat →
  ∃ id : string,
    allocateLoop fuel o want want 2 = Some (id, {[id]} ∪ o)
    ∧ allocateIdentifier o want = (id, {[id]} ∪ o)
    ∧ (id ∉ o)
    ∧ id ∈ (allocateIdentifier o want).2
    ∧ ((want ∉ o ∧ id = want)
       ∨ (want ∈ o
          ∧ ∃ N : Z, (2 ≤ N)
              ∧ id = want +:+ "_" +:+ Itoa N
              ∧ ∀ M : Z, 2 ≤ M < N → want +:+ "_" +:+ Itoa M ∈ o)).
Proof.
  intros Hfuel.
  destruct (allocateLoop_run want o fuel o 2) as (N & HN & Hrun & Hfree & Hbelow);
    [lia|done..|].
  destruct (allocateLoop_run want o (S (size o)) o 2) as (N' & HN' & Hrun' & Hfree' & Hbelow');
    [lia|done|lia|].
  assert (N' = N) as ->.
  { destruct (Z.lt_trichotomy N' N) as [Hlt|[?|Hlt]]; [|done|].
    - destruct Hfree'. apply Hbelow. lia.
    - destruct Hfree. apply Hbelow'. lia. }
  change (candidate want (2 - 1)) with want in Hrun, Hrun'.
  exists (candidate want N). split; [done|].
  assert (allocateIdentifier o want = (candidate want N, {[candidate want N]} ∪ o)) as Htotal.
  { unfold allocateIdentifier. by rewrite Hrun'. }
  split; [done|]. split; [done|]. split.
  { rewrite Htotal. simpl. set_solver. }
  destruct (decide (N = 1)) as [->|HN1].
  - left. done.
  - right. split.
    + apply (Hbelow 1). lia.
    + exists N. split; [lia|]. split.
      * unfold candidate. by rewrite decide_False by lia.
      * intros M HM. specialize (Hbelow M ltac:(lia)).
        unfold candidate in Hbelow. by rewrite decide_False in Hbelow by lia.
Qed.

Lemma allocateIdentifier_spec_witness :
  ∃ id : string,
    allocateLoop 3 {["m"; "m_2"]} "m" "m" 2 = Some (id, {[id]} ∪ {["m"; "m_2"]})
    ∧ allocateIdentifier {["m"; "m_2"]} "m" = (id, {[id]} ∪ {["m"; "m_2"]})
    ∧ (id ∉ ({["m"; "m_2"]} : gset string))
    ∧ id ∈ (allocateIdentifier {["m"; "m_2"]} "m").2
    ∧ (("m" ∉ ({["m"; "m_2"]} : gset string) ∧ id = "m")
       ∨ ("m" ∈ ({["m"; "m_2"]} : gset string)
          ∧ ∃ N : Z, (2 ≤ N)
              ∧ id = "m" +:+ "_" +:+ Itoa N
              ∧ ∀ M : Z, 2 ≤ M < N → "m" +:+ "_" +:+ Itoa M ∈ ({["m"; "m_2"]} : gset string))).
Proof. apply (allocateIdentifier_spec {["m"; "m_2"]} "m" 3). vm_compute. lia. Defined.

(** ** The generator as a writer

    Every function of the generator only appends to the buffer, and leaves
    the indentation and the other fields as it found them. *)

Lemma emit_emit (a b : list string) (g : generator) :
  emit a (emit b g) = emit (b ++ a) g.
Proof. unfold emit, set_buf. simpl. by rewrite (assoc_L (++)). Qed.

Lemma emit_nil (g : generator) : emit [] g = g.
Proof. destruct g. unfold emit, set_buf. simpl. by rewrite (right_id_L [] (++)). Qed.

Lemma p_emit (s : string) (L : list string) (g : generator) :
  p s (emit L g) = emit (L ++ [indent g +:+ s +:+ nl]) g.
Proof. unfold p, emit, set_buf. simpl. by rewrite (assoc_L (++)). Qed.

Lemma in_emit (a : list string) (g : generator) : in_ (emit a g) = emit a (in_ g).
Proof. reflexivity. Qed.

Lemma dropLast_tab (s : string) : dropLast (s +:+ tab) = s.
Proof.
  unfold dropLast. rewrite length_app_s. simpl.
  replace (String.length s + 1 - 1)%nat with (String.length s) by lia.
  induction s as [|a s IH]; [done|]. rewrite app_cons. simpl. by rewrite IH.
Qed.

Lemma out_in (g : generator) : out (in_ g) = g.
Proof.
  unfold out, in_. simpl. rewrite decide_True.
  - destruct g. unfold set_indent. simpl. by rewrite dropLast_tab.
  - rewrite length_app_s. simpl. lia.
Qed.

Lemma out_emit_in (a : list string) (g : generator) : out (emit a (in_ g)) = emit a g.
Proof.
  rewrite <- (out_in g) at 2. unfold out. simpl. by case_decide.
Qed.

Lemma indent_in (g : generator) : indent (in_ g) = indent g +:+ tab.
Proof. reflexivity. Qed.

Lemma indent_set_buf g b : indent (set_buf g b) = indent g.
Proof. reflexivity. Qed.

Lemma getArgNames_emit ord L g m i :
  getArgNames ord (emit L g) m i = getArgNames ord g m i.
Proof. reflexivity. Qed.

Lemma getArgNames_set_buf ord g b m i :
  getArgNames ord (set_buf g b) m i = getArgNames ord g m i.
Proof. reflexivity. Qed.

Lemma getArgTypes_emit L g m po i :
  getArgTypes (emit L g) m po i = getArgTypes g m po i.
Proof. reflexivity. Qed.

Lemma getArgTypes_set_buf g b m po i :
  getArgTypes (set_buf g b) m po i = getArgTypes g m po i.
Proof. reflexivity. Qed.

Lemma mockName_emit L g n : mockName (emit L g) n = mockName g n.
Proof. reflexivity. Qed.

Lemma mockName_set_buf g b n : mockName (set_buf g b) n = mockName g n.
Proof. reflexivity. Qed.

Lemma packageMap_emit L g : packageMap (emit L g) = packageMap g.
Proof. reflexivity. Qed.

Lemma packageMap_set_buf g b : packageMap (set_buf g b) = packageMap g.
Proof. reflexivity. Qed.

Lemma formattedTypeParams_emit L g it po :
  formattedTypeParams (emit L g) it po = formattedTypeParams g it po.
Proof. reflexivity. Qed.

Lemma formattedTypeParams_set_buf g b it po :
  formattedTypeParams (set_buf g b) it po = formattedTypeParams g it po.
Proof. reflexivity. Qed.


Lemma set_buf_set_buf (a b : list string) (g : generator) :
  set_buf (set_buf g a) b = set_buf g b.
Proof. reflexivity. Qed.

Create HintDb gen discriminated.
#[local] Hint Rewrite p_emit in_emit out_emit_in emit_emit indent_in
  indent_set_buf : gen.

(** Normalising a straight-line sequence of writes applied to [emit L g]. *)
Ltac gen_norm := autorewrite with gen.

(** The values read from the generator on entry do not depend on the buffer. *)
Ltac gen_entry :=
  rewrite ?getArgNames_emit, ?getArgTypes_emit, ?mockName_emit, ?packageMap_emit,
    ?formattedTypeParams_emit, ?getArgNames_set_buf, ?getArgTypes_set_buf,
    ?mockName_set_buf, ?packageMap_set_buf, ?formattedTypeParams_set_buf.

Lemma writer_intro (F : generator → generator) (g : generator) :
  F (emit [] g) = emit (buf (F (emit [] (set_buf g [])))) g →
  F g = emit (buf (F (set_buf g []))) g.
Proof. by rewrite !emit_nil. Qed.

Ltac writer_done := gen_norm; simpl; reflexivity.

Lemma indent_emit (a : list string) (g : generator) : indent (emit a g) = indent g.
Proof. reflexivity. Qed.

Lemma castReturns_lines (idRet : string) (rets : list string) :
  ∀ (i : nat) (ia : gset string) (L : list string) (g : generator),
    castReturns idRet i rets ia (emit L g)
    = let '(retNames, ia, lines) := castReturnsLines (indent g) idRet i rets ia in
      (retNames, ia, emit (L ++ lines) g).
Proof.
  induction rets as [|t rets IH]; intros i ia L g; simpl.
  - by rewrite (right_id_L [] (++)).
  - destruct (allocateIdentifier ia _) as [retName ia'].
    rewrite p_emit, IH.
    destruct (castReturnsLines _ _ _ _ _) as [[retNames ia''] lines].
    by rewrite <- (assoc_L (++)).
Qed.

Lemma GenerateMockMethod_emit E ord mockType m pkgOverride shortTp g :
  GenerateMockMethod E ord mockType m pkgOverride shortTp g
  = emit (methodText E ord mockType m pkgOverride shortTp g) g.
Proof.
  unfold methodText.
  apply (writer_intro (GenerateMockMethod E ord mockType m pkgOverride shortTp)).
  unfold GenerateMockMethod. gen_entry. cbv zeta.
  destruct (allocateIdentifier _ "m") as [idRecv ia1].
  generalize (getArgNames ord g m true) as argNames.
  generalize (getArgTypes g m pkgOverride true) as argTypes.
  generalize ((λ p, Type_String (Param.Type' p) (packageMap g) pkgOverride)
                <$> Method.Out m) as rets.
  intros rets argTypes argNames.
  destruct (Method.Variadic m) as [v|].
  - destruct (allocateIdentifier ia1 "varargs") as [idVarArgs ia2].
    destruct (allocateIdentifier ia2 "a") as [idVArg ia3].
    destruct (decide (length (Method.Out m) = 0)%nat); [writer_done|].
    destruct (allocateIdentifier ia3 "ret") as [idRet ia4]. gen_norm.
    rewrite !castReturns_lines. gen_norm.
    destruct (castReturnsLines _ _ _ _ _) as [[retNames ia'] lines]. writer_done.
  - destruct (decide (length (Method.Out m) = 0)%nat); [writer_done|].
    destruct (allocateIdentifier ia1 "ret") as [idRet ia4]. gen_norm.
    rewrite !castReturns_lines. gen_norm.
    destruct (castReturnsLines _ _ _ _ _) as [[retNames ia'] lines]. writer_done.
Qed.

Lemma GenerateMockRecorderMethod_emit ord intf m shortTp typed g :
  GenerateMockRecorderMethod ord intf m shortTp typed g
  = emit (recorderText ord intf m shortTp typed g) g.
Proof.
  unfold recorderText.
  apply (writer_intro (GenerateMockRecorderMethod ord intf m shortTp typed)).
  unfold GenerateMockRecorderMethod. gen_entry. cbv zeta.
  generalize (getArgNames ord g m true) as argNames. intros argNames.
  destruct (allocateIdentifier _ "mr") as [idRecv ia1].
  destruct (Method.Variadic m) as [v|]; [destruct (decide (length argNames = 1)%nat);
    [|destruct (allocateIdentifier ia1 "varargs") as [idVarArgs ia2]]|];
    destruct typed; writer_done.
Qed.

Lemma GenerateMockReturnCallMethod_emit ord intf m pkgOverride longTp shortTp g :
  GenerateMockReturnCallMethod ord intf m pkgOverride longTp shortTp g
  = emit (returnCallText ord intf m pkgOverride longTp shortTp g) g.
Proof.
  unfold returnCallText.
  apply (writer_intro (GenerateMockReturnCallMethod ord intf m pkgOverride longTp shortTp)).
  unfold GenerateMockReturnCallMethod. gen_entry. cbv zeta.
  destruct (allocateIdentifier _ "c") as [idRecv ia1]. writer_done.
Qed.

Lemma methodText_emit E ord mockType m pkgOverride shortTp L g :
  methodText E ord mockType m pkgOverride shortTp (emit L g)
  = methodText E ord mockType m pkgOverride shortTp g.
Proof. reflexivity. Qed.

Lemma recorderText_emit ord intf m shortTp typed L g :
  recorderText ord intf m shortTp typed (emit L g)
  = recorderText ord intf m shortTp typed g.
Proof. reflexivity. Qed.

Lemma returnCallText_emit ord intf m pkgOverride longTp shortTp L g :
  returnCallText ord intf m pkgOverride longTp shortTp (emit L g)
  = returnCallText ord intf m pkgOverride longTp shortTp g.
Proof. reflexivity. Qed.

Lemma methodText_set_buf E ord mockType m pkgOverride shortTp b g :
  methodText E ord mockType m pkgOverride shortTp (set_buf g b)
  = methodText E ord mockType m pkgOverride shortTp g.
Proof. reflexivity. Qed.

Lemma recorderText_set_buf ord intf m shortTp typed b g :
  recorderText ord intf m shortTp typed (set_buf g b)
  = recorderText ord intf m shortTp typed g.
Proof. reflexivity. Qed.

Lemma returnCallText_set_buf ord intf m pkgOverride longTp shortTp b g :
  returnCallText ord intf m pkgOverride longTp shortTp (set_buf g b)
  = returnCallText ord intf m pkgOverride longTp shortTp g.
Proof. reflexivity. Qed.

#[local] Hint Rewrite GenerateMockMethod_emit GenerateMockRecorderMethod_emit
  GenerateMockReturnCallMethod_emit methodText_emit recorderText_emit
  returnCallText_emit methodText_set_buf recorderText_set_buf
  returnCallText_set_buf : gen.

Lemma GenerateMethodBlocks_emit E ord mockType intf pkgOverride longTp shortTp typed g m :
  GenerateMethodBlocks E ord mockType intf pkgOverride longTp shortTp typed g m
  = emit (methodBlocksText E ord mockType intf pkgOverride longTp shortTp typed g m) g.
Proof.
  unfold methodBlocksText.
  apply (writer_intro (λ g, GenerateMethodBlocks E ord mockType intf pkgOverride
                              longTp shortTp typed g m)).
  unfold GenerateMethodBlocks. destruct typed; writer_done.
Qed.

Lemma foldl_writer {A} (F : generator → A → generator)
    (T : generator → A → list string) :
  (∀ g x, F g x = emit (T g x) g) →
  (∀ a g x, T (emit a g) x = T g x) →
  ∀ xs g, foldl F g xs = emit (concat (T g <$> xs)) g.
Proof.
  intros HF HT xs. induction xs as [|x xs IH]; intros g; simpl.
  - by rewrite emit_nil.
  - rewrite HF, IH, emit_emit. f_equal. f_equal. f_equal.
    apply list_fmap_ext. intros _ y _. apply HT.
Qed.

Lemma GenerateMockMethods_spec E ord mockType intf pkgOverride longTp shortTp typed g :
  GenerateMockMethods E ord mockType intf pkgOverride longTp shortTp typed g
  = (sortedInterface intf,
     emit (concat (methodBlocksText E ord mockType (sortedInterface intf) pkgOverride
                     longTp shortTp typed g
                   <$> sortMethods (Interface.Methods intf))) g).
Proof.
  unfold GenerateMockMethods. f_equal.
  apply foldl_writer.
  - intros. apply GenerateMethodBlocks_emit.
  - reflexivity.
Qed.

Lemma methodBlocksText_emit E ord mockType intf pkgOverride longTp shortTp typed L g :
  methodBlocksText E ord mockType intf pkgOverride longTp shortTp typed (emit L g)
  = methodBlocksText E ord mockType intf pkgOverride longTp shortTp typed g.
Proof. reflexivity. Qed.

Lemma writeInterfaceHead_emit mockType intf longTp shortTp g :
  writeInterfaceHead mockType intf longTp shortTp g
  = emit (buf (writeInterfaceHead mockType intf longTp shortTp (set_buf g []))) g.
Proof.
  apply (writer_intro (writeInterfaceHead mockType intf longTp shortTp)).
  unfold writeInterfaceHead. writer_done.
Qed.

Lemma GenerateMockInterface_spec E ord flags intf outputPackagePath g :
  GenerateMockInterface E ord flags intf outputPackagePath g
  = (sortedInterface intf,
     emit (interfaceHeadText g intf
             (formattedTypeParams g intf outputPackagePath).1
             (formattedTypeParams g intf outputPackagePath).2
           ++ concat (methodBlocksText E ord (mockName g (Interface.Name intf))
                        (sortedInterface intf) outputPackagePath
                        (formattedTypeParams g intf outputPackagePath).1
                        (formattedTypeParams g intf outputPackagePath).2
                        (typed flags) g
                      <$> sortMethods (Interface.Methods intf))) g).
Proof.
  unfold interfaceHeadText, GenerateMockInterface.
  destruct (formattedTypeParams g intf outputPackagePath) as [longTp shortTp]. simpl.
  rewrite writeInterfaceHead_emit, GenerateMockMethods_spec, methodBlocksText_emit,
    emit_emit.
  reflexivity.
Qed.

Lemma buf_emit_on_empty (L : list string) (g : generator) :
  buf (emit L (set_buf g [])) = L.
Proof. reflexivity. Qed.

Lemma methodBlocksText_set_buf E ord mockType intf pkgOverride longTp shortTp typed b g :
  methodBlocksText E ord mockType intf pkgOverride longTp shortTp typed (set_buf g b)
  = methodBlocksText E ord mockType intf pkgOverride longTp shortTp typed g.
Proof. reflexivity. Qed.

Lemma interfaceHeadText_set_buf g b intf longTp shortTp :
  interfaceHeadText (set_buf g b) intf longTp shortTp
  = interfaceHeadText g intf longTp shortTp.
Proof. unfold interfaceHeadText. by rewrite mockName_set_buf, set_buf_set_buf. Qed.

Lemma interfaceText_eq E ord flags outputPackagePath g intf :
  interfaceText E ord flags outputPackagePath g intf
  = interfaceHeadText g intf
      (formattedTypeParams g intf outputPackagePath).1
      (formattedTypeParams g intf outputPackagePath).2
    ++ concat (methodBlocksText E ord (mockName g (Interface.Name intf))
                 (sortedInterface intf) outputPackagePath
                 (formattedTypeParams g intf outputPackagePath).1
                 (formattedTypeParams g intf outputPackagePath).2
                 (typed flags) g
               <$> sortMethods (Interface.Methods intf)).
Proof.
  unfold interfaceText at 1. rewrite GenerateMockInterface_spec.
  cbn [snd]. rewrite buf_emit_on_empty. gen_entry.
  by rewrite methodBlocksText_set_buf, interfaceHeadText_set_buf.
Qed.

Lemma GenerateMockInterface_emit E ord flags intf outputPackagePath g :
  GenerateMockInterface E ord flags intf outputPackagePath g
  = (sortedInterface intf, emit (interfaceText E ord flags outputPackagePath g intf) g).
Proof. rewrite interfaceText_eq. apply GenerateMockInterface_spec. Qed.

Lemma interfaceText_emit E ord flags opp g a :
  interfaceText E ord flags opp (emit a g) = interfaceText E ord flags opp g.
Proof. reflexivity. Qed.

Lemma GenerateMockInterfaces_spec E ord flags outputPackagePath :
  ∀ intfs g,
    GenerateMockInterfaces E ord flags intfs outputPackagePath g
    = (sortedInterface <$> intfs,
       emit (concat (interfaceText E ord flags outputPackagePath g <$> intfs)) g).
Proof.
  induction intfs as [|intf intfs IH]; intros g; simpl.
  - by rewrite emit_nil.
  - rewrite GenerateMockInterface_emit, IH, emit_emit. reflexivity.
Qed.

(** ** The text of [Generate] *)

Lemma foldl_p {A} (f : A → string) (xs : list A) :
  ∀ L g, foldl (λ g x, p (f x) g) (emit L g) xs
         = emit (L ++ ((λ x, indent g +:+ f x +:+ nl) <$> xs)) g.
Proof.
  induction xs as [|x xs IH]; intros L g; simpl.
  - by rewrite (right_id_L [] (++)).
  - rewrite p_emit, IH. by rewrite <- (assoc_L (++)).
Qed.

Lemma fields_emit (L : list string) (g : generator) :
  copyrightHeader (emit L g) = copyrightHeader g
  ∧ buildConstraint (emit L g) = buildConstraint g
  ∧ filename (emit L g) = filename g
  ∧ srcPackage (emit L g) = srcPackage g
  ∧ srcInterfaces (emit L g) = srcInterfaces g.
Proof. done. Qed.

Lemma fields_set_buf (b : list string) (g : generator) :
  copyrightHeader (set_buf g b) = copyrightHeader g
  ∧ buildConstraint (set_buf g b) = buildConstraint g
  ∧ filename (set_buf g b) = filename g
  ∧ srcPackage (set_buf g b) = srcPackage g
  ∧ srcInterfaces (set_buf g b) = srcInterfaces g.
Proof. done. Qed.

Ltac gen_fields :=
  repeat match goal with
    | |- context [copyrightHeader (emit ?L ?g)] =>
        rewrite (proj1 (fields_emit L g))
    | |- context [buildConstraint (emit ?L ?g)] =>
        rewrite (proj1 (proj2 (fields_emit L g)))
    | |- context [filename (emit ?L ?g)] =>
        rewrite (proj1 (proj2 (proj2 (fields_emit L g))))
    | |- context [srcPackage (emit ?L ?g)] =>
        rewrite (proj1 (proj2 (proj2 (proj2 (fields_emit L g)))))
    | |- context [srcInterfaces (emit ?L ?g)] =>
        rewrite (proj2 (proj2 (proj2 (proj2 (fields_emit L g)))))
    | |- context [copyrightHeader (set_buf ?g ?b)] =>
        rewrite (proj1 (fields_set_buf b g))
    | |- context [buildConstraint (set_buf ?g ?b)] =>
        rewrite (proj1 (proj2 (fields_set_buf b g)))
    | |- context [filename (set_buf ?g ?b)] =>
        rewrite (proj1 (proj2 (proj2 (fields_set_buf b g))))
    | |- context [srcPackage (set_buf ?g ?b)] =>
        rewrite (proj1 (proj2 (proj2 (proj2 (fields_set_buf b g)))))
    | |- context [srcInterfaces (set_buf ?g ?b)] =>
        rewrite (proj2 (proj2 (proj2 (proj2 (fields_set_buf b g)))))
    end.

Lemma writeHeader_emit E flags g :
  writeHeader E flags g = emit (headerText E flags g) g.
Proof.
  unfold headerText. apply (writer_intro (writeHeader E flags)).
  unfold writeHeader. cbv zeta. gen_fields.
  destruct (decide (copyrightHeader g ≠ "")); rewrite ?foldl_p; gen_norm; gen_fields;
    (destruct (decide (buildConstraint g ≠ "")); gen_norm; gen_fields;
     destruct (writeSourceComment flags), (writeCmdComment flags);
     try destruct (decide (filename g ≠ "")); writer_done).
Qed.

Lemma writePackageClause_emit flags outputPkgName g :
  writePackageClause flags outputPkgName g
  = emit (packageClauseText flags outputPkgName g) g.
Proof.
  unfold packageClauseText. apply (writer_intro (writePackageClause flags outputPkgName)).
  unfold writePackageClause. destruct (writePkgComment flags); writer_done.
Qed.

Lemma writeDirective_emit E flags g :
  writeDirective E flags g = emit (directiveText E flags g) g.
Proof.
  unfold directiveText. apply (writer_intro (writeDirective E flags)).
  unfold writeDirective. destruct (writeGenerateDirective flags); writer_done.
Qed.

Lemma writeAliasedImports_emit E outputPackagePath entries :
  ∀ L g, writeAliasedImports E outputPackagePath entries (emit L g)
         = emit (L ++ (aliasedImportLine E (indent g)
                       <$> filter (λ kv, kv.1 ≠ outputPackagePath) entries)) g.
Proof.
  unfold writeAliasedImports.
  induction entries as [|[pkgPath pkgName] entries IH]; intros L g; simpl.
  - by rewrite (right_id_L [] (++)).
  - rewrite filter_cons. simpl. case_decide.
    + rewrite decide_False by naive_solver. apply IH.
    + rewrite decide_True by done. rewrite p_emit, IH. by rewrite <- (assoc_L (++)).
Qed.

Lemma writeDotImports_emit E dotImports L g :
  writeDotImports E dotImports (emit L g)
  = emit (L ++ (dotImportLine E (indent g) <$> dotImports)) g.
Proof. unfold writeDotImports. by rewrite (foldl_p (λ pkgPath, ". " +:+ Quote E pkgPath)). Qed.

Lemma set_packageMap_emit a g pm :
  set_packageMap (emit a g) pm = emit a (set_packageMap g pm).
Proof. reflexivity. Qed.

Lemma headerText_emit E flags g a :
  headerText E flags (emit a g) = headerText E flags g.
Proof. reflexivity. Qed.

Lemma packageClauseText_set_packageMap flags name g pm :
  packageClauseText flags name (set_packageMap g pm) = packageClauseText flags name g.
Proof. unfold packageClauseText, writePackageClause. by destruct (writePkgComment flags). Qed.

Lemma directiveText_set_packageMap E flags g pm :
  directiveText E flags (set_packageMap g pm) = directiveText E flags g.
Proof. unfold directiveText, writeDirective. by destruct (writeGenerateDirective flags). Qed.

Lemma packageClauseText_emit flags name g a :
  packageClauseText flags name (emit a g) = packageClauseText flags name g.
Proof. reflexivity. Qed.

Lemma directiveText_emit E flags g a :
  directiveText E flags (emit a g) = directiveText E flags g.
Proof. reflexivity. Qed.

(** The whole of [Generate]: the model comes back with the methods of every
    interface sorted, the generator with the alias table set and the text
    appended to its buffer. *)
Lemma Generate_spec E ord flags g pkg outputPkgName outputPackagePath :
  Generate E ord flags g pkg outputPkgName outputPackagePath
  = definedImports ← parseDefinedImports (imports flags);
    let opp := effectiveOutputPackagePath flags pkg outputPkgName outputPackagePath in
    let pm := resolvedPackageMap E ord flags pkg outputPkgName outputPackagePath
                definedImports in
    let g1 := set_packageMap g pm in
    Some (Package.withInterfaces pkg (sortedInterface <$> Package.Interfaces pkg),
          emit (headerText E flags g
                ++ packageClauseText flags outputPkgName g
                ++ [indent g +:+ "import (" +:+ nl]
                ++ (aliasedImportLine E (indent g +:+ tab)
                    <$> importedEntries opp (rangeMap ord pm))
                ++ (dotImportLine E (indent g +:+ tab) <$> Package.DotImports pkg)
                ++ [indent g +:+ ")" +:+ nl]
                ++ directiveText E flags g
                ++ concat (interfaceText E ord flags opp g1 <$> Package.Interfaces pkg))
            g1).
Proof.
  unfold Generate, resolvedPackageMap, importedEntries.
  destruct (parseDefinedImports (imports flags)) as [definedImports|]; [|done].
  cbn [mbind option_bind]. cbv zeta.
  rewrite writeHeader_emit, set_packageMap_emit, writePackageClause_emit.
  rewrite packageClauseText_emit, packageClauseText_set_packageMap, emit_emit.
  rewrite p_emit, in_emit, packageMap_emit, writeAliasedImports_emit,
    writeDotImports_emit, out_emit_in, p_emit.
  rewrite writeDirective_emit, directiveText_emit, directiveText_set_packageMap, emit_emit.
  rewrite GenerateMockInterfaces_spec, interfaceText_emit, emit_emit.
  cbn [packageMap indent set_packageMap in_ set_indent].
  do 3 f_equal. rewrite <- !(assoc_L (++)). reflexivity.
Qed.

(** ** The import alias resolver *)

Lemma refused_iff (localNames : gset string) (s : string) :
  bool_decide (s ∈ localNames) || IsKeyword s || bool_decide (s = "any") = true
  ↔ s ∈ refusedNames localNames.
Proof.
  unfold refusedNames, IsKeyword.
  rewrite !orb_true_iff, !bool_decide_eq_true, !elem_of_union, elem_of_list_to_set,
    elem_of_singleton. done.
Qed.

Lemma numbered_inj (base : string) (j k : Z) :
  base +:+ Itoa j = base +:+ Itoa k → j = k.
Proof. intros Heq. apply (inj (String.app base)) in Heq. by apply (inj pretty) in Heq. Qed.

(** Entered to try [base(i-1)], the loop of line 426 returns a name it does
    not refuse, provided the fuel exceeds the number of refused names ahead. *)
Lemma uniqueNameLoop_numbered (localNames : gset string) (base : string) :
  ∀ (fuel : nat) (X : gset string) (i : Z),
    (∀ j, i - 1 ≤ j → base +:+ Itoa j ∈ refusedNames localNames → base +:+ Itoa j ∈ X) →
    (size X < fuel)%nat →
    ∃ name, uniqueNameLoop fuel localNames base (base +:+ Itoa (i - 1)) i = Some name
          ∧ name ∉ refusedNames localNames.
Proof.
  induction fuel as [|fuel IH]; intros X i HX Hsize; [lia|].
  simpl. destruct (_ || _ || _) eqn:Hrefused.
  - apply refused_iff in Hrefused.
    destruct (IH (X ∖ {[base +:+ Itoa (i - 1)]}) (i + 1)) as (name & Hrun & Hname).
    + intros j Hj Hjr. apply elem_of_difference. split; [apply HX; [lia|done]|].
      rewrite elem_of_singleton. intros Heq%numbered_inj. lia.
    + assert (X ∖ {[base +:+ Itoa (i - 1)]} ⊂ X) as Hsub.
      { apply subset_difference_elem_of, HX; [lia|done]. }
      apply subset_size in Hsub. lia.
    + exists name. replace (i + 1 - 1) with i in Hrun by lia. done.
  - exists (base +:+ Itoa (i - 1)). split; [done|].
    rewrite <- refused_iff. by rewrite Hrefused.
Qed.

Lemma uniqueNameLoop_terminates (localNames : gset string) (base pkgName : string)
    (fuel : nat) :
  (S (size (refusedNames localNames)) < fuel)%nat →
  ∃ name, uniqueNameLoop fuel localNames base pkgName 0 = Some name
        ∧ name ∉ refusedNames localNames.
Proof.
  intros Hfuel. destruct fuel as [|fuel]; [lia|]. simpl.
  destruct (_ || _ || _) eqn:Hrefused.
  - destruct (uniqueNameLoop_numbered localNames base fuel (refusedNames localNames) 1)
      as (name & Hrun & Hname); [done|lia|].
    exists name. done.
  - exists pkgName. split; [done|]. rewrite <- refused_iff. by rewrite Hrefused.
Qed.

Lemma uniqueName_not_refused (localNames : gset string) (base pkgName : string) :
  uniqueName localNames base pkgName ∉ refusedNames localNames.
Proof.
  unfold uniqueName.
  destruct (uniqueNameLoop_terminates localNames base pkgName
              (S (S (size (refusedNames localNames))))) as (name & -> & Hname); [lia|done].
Qed.

Lemma resolveStep_wellFormed E packagesName definedImports pkg outputPackagePath st pth :
  aliasesWellFormed st →
  aliasesWellFormed (resolveStep E packagesName definedImports pkg outputPackagePath st pth).
Proof.
  destruct st as [pm ln]. intros [Hval Hinj]. unfold resolveStep.
  set (base := match packagesName !! pth with Some b => b | None => _ end).
  set (pkgName := match definedImports !! pth with Some n => n | None => _ end).
  pose proof (uniqueName_not_refused ln base pkgName) as Hfresh.
  set (name := uniqueName ln base pkgName) in *.
  destruct (_ && _); [done|].
  assert (name ∉ ln ∧ IsKeyword name = false ∧ name ≠ "any") as (Hln & Hkw & Hany).
  { unfold refusedNames in Hfresh. rewrite !not_elem_of_union in Hfresh.
    destruct Hfresh as [[? Hk] Ha]. split; [done|]. split.
    - unfold IsKeyword. apply bool_decide_eq_false. by rewrite elem_of_list_to_set in Hk.
    - by rewrite elem_of_singleton in Ha. }
  split; simpl.
  - intros q a. rewrite lookup_insert. case_decide.
    + intros [= <-]. split; [set_solver|done].
    + intros Hq. destruct (Hval q a Hq) as (? & ? & ?). split; [set_solver|done].
  - intros p1 p2 a. rewrite !lookup_insert. repeat case_decide; subst.
    + done.
    + intros [= <-] Hp2. destruct (Hval p2 name Hp2) as [? _]. done.
    + intros Hp1 [= <-]. destruct (Hval p1 name Hp1) as [? _]. done.
    + apply Hinj.
Qed.

Lemma resolveAliases_wellFormed E packagesName definedImports pkg outputPackagePath :
  ∀ sortedPaths st,
    aliasesWellFormed st →
    aliasesWellFormed
      (foldl (resolveStep E packagesName definedImports pkg outputPackagePath)
         st sortedPaths).
Proof.
  induction sortedPaths as [|pth paths IH]; intros st Hst; simpl; [done|].
  by apply IH, resolveStep_wellFormed.
Qed.

Lemma Generate_packageMap E ord flags g pkg outputPkgName outputPackagePath pkg' g' :
  Generate E ord flags g pkg outputPkgName outputPackagePath = Some (pkg', g') →
  ∃ definedImports,
    parseDefinedImports (imports flags) = Some definedImports
    ∧ packageMap g' = resolvedPackageMap E ord flags pkg outputPkgName
                        outputPackagePath definedImports.
Proof.
  rewrite Generate_spec.
  destruct (parseDefinedImports (imports flags)) as [definedImports|]; [|done].
  simpl. intros [= <- <-]. by exists definedImports.
Qed.

(** C2. In the alias table [Generate] leaves in [g.packageMap], two paths
    with the same alias are the same path, and no alias is a Go keyword or
    the name [any]. *)
Theorem alias_uniqueness E ord flags g pkg outputPkgName outputPackagePath pkg' g' :
  Generate E ord flags g pkg outputPkgName outputPackagePath = Some (pkg', g') →
  (∀ p1 p2 a, packageMap g' !! p1 = Some a → packageMap g' !! p2 = Some a → p1 = p2)
  ∧ (∀ pth a, packageMap g' !! pth = Some a → a ∉ keywords ∧ a ≠ "any").
Proof.
  intros (definedImports & _ & ->)%Generate_packageMap.
  unfold resolvedPackageMap, resolveAliases.
  destruct (resolveAliases_wellFormed E
              (createPackageMap E (sortedImportPaths ord (requiredImports pkg)))
              definedImports pkg
              (effectiveOutputPackagePath flags pkg outputPkgName outputPackagePath)
              (sortedImportPaths ord (requiredImports pkg)) (∅, ∅)) as [Hval Hinj].
  { split; simpl; intros *; by rewrite lookup_empty. }
  split; [done|]. intros pth a Ha. destruct (Hval pth a Ha) as (_ & Hkw & Hany).
  split; [|done]. unfold IsKeyword in Hkw. by apply bool_decide_eq_false in Hkw.
Qed.

(** ** Sorting *)

#[global] Instance byMethodName_trans : Transitive byMethodName.
Proof. intros a b c. unfold byMethodName. apply transitivity. Qed.

#[global] Instance byMethodName_total : Total byMethodName.
Proof. intros a b. unfold byMethodName. apply total, _. Qed.

Lemma sortMethods_Sorted (ms : list Method.t) : Sorted byMethodName (sortMethods ms).
Proof. apply Sorted_merge_sort, _. Qed.

Lemma sortMethods_Permutation (ms : list Method.t) : sortMethods ms ≡ₚ ms.
Proof. apply merge_sort_Permutation. Qed.

(** With unique method names there is one sorted arrangement only, whatever
    the sorting algorithm. *)
Lemma sortMethods_unique (ms ms' : list Method.t) :
  NoDup (Method.Name <$> ms) → ms' ≡ₚ ms → Sorted byMethodName ms' →
  ms' = sortMethods ms.
Proof.
  intros Hnd Hperm Hsorted.
  apply (Sorted_unique_strong byMethodName); [|done|apply sortMethods_Sorted|].
  - intros x1 x2 Hx1 Hx2 H12 H21.
    rewrite Hperm in Hx1. rewrite sortMethods_Permutation in Hx2.
    assert (Method.Name x1 = Method.Name x2) as Hname
      by (by apply (anti_symm String.le)).
    apply list_elem_of_lookup in Hx1 as [i Hi]. apply list_elem_of_lookup in Hx2 as [j Hj].
    assert (i = j) as ->.
    { apply (NoDup_lookup _ i j (Method.Name x1) Hnd); rewrite list_lookup_fmap.
      - by rewrite Hi.
      - by rewrite Hj, Hname. }
    congruence.
  - by rewrite Hperm, sortMethods_Permutation.
Qed.

Lemma sortMethods_ascending (ms : list Method.t) :
  strictlyAscending ms → sortMethods ms = ms.
Proof. intros [Hs Hnd]. symmetry. by apply sortMethods_unique. Qed.

(** ** The model after [Generate] *)

(** C3 as stated fails: [Generate] hands back the interface [Conn] with its
    methods [Write, Close] reordered to [Close, Write]. *)
Lemma Generate_reorders_methods :
  ∃ pkg' g',
    Generate plainEnv canonicalOrder plainFlags newGenerator connPkg "mock_foo" ""
    = Some (pkg', g')
    ∧ methodNames connPkg = [["Write"; "Close"]]
    ∧ methodNames pkg' = [["Close"; "Write"]]
    ∧ pkg' ≠ connPkg.
Proof.
  assert (∃ pkg' g',
    Generate plainEnv canonicalOrder plainFlags newGenerator connPkg "mock_foo" ""
    = Some (pkg', g')
    ∧ methodNames connPkg = [["Write"; "Close"]]
    ∧ methodNames pkg' = [["Close"; "Write"]]) as (pkg' & g' & HG & Hbefore & Hafter).
  { vm_compute. eexists _, _. split; [reflexivity|]. split; reflexivity. }
  exists pkg', g'. repeat (split; [done|]).
  intros ->. rewrite Hbefore in Hafter. discriminate.
Qed.

(** C3, amended. The one change [Generate] makes to the model is the order
    of each interface's methods, which it leaves sorted by name: the
    package's name, path, imports and dot imports, the sequence of
    interfaces, each interface's name and type parameters, and the methods
    themselves with all their parameter data are as they were; a model whose
    methods are already in strictly ascending order comes back unchanged. *)
Theorem Generate_model_frame E ord flags g pkg outputPkgName outputPackagePath pkg' g' :
  Generate E ord flags g pkg outputPkgName outputPackagePath = Some (pkg', g') →
  Package.Name pkg' = Package.Name pkg
  ∧ Package.PkgPath pkg' = Package.PkgPath pkg
  ∧ Package.DotImports pkg' = Package.DotImports pkg
  ∧ Package.Imports pkg' = Package.Imports pkg
  ∧ Forall2 (λ intf intf',
               Interface.Name intf' = Interface.Name intf
               ∧ Interface.TypeParams intf' = Interface.TypeParams intf
               ∧ Interface.Methods intf' ≡ₚ Interface.Methods intf
               ∧ Sorted byMethodName (Interface.Methods intf'))
      (Package.Interfaces pkg) (Package.Interfaces pkg')
  ∧ (Forall (λ intf, strictlyAscending (Interface.Methods intf)) (Package.Interfaces pkg)
     → pkg' = pkg).
Proof.
  rewrite Generate_spec.
  destruct (parseDefinedImports (imports flags)) as [definedImports|]; [|done].
  simpl. intros [= <- _]. simpl. repeat (split; [done|]). split.
  - apply Forall2_fmap_r, Forall_Forall2_diag, Forall_forall. intros intf _. simpl.
    split; [done|]. split; [done|].
    split; [apply sortMethods_Permutation|apply sortMethods_Sorted].
  - intros Hasc. destruct pkg as [n pth intfs dots ims]. unfold Package.withInterfaces.
    simpl in *. f_equal. induction Hasc as [|intf intfs Hintf _ IH]; [done|].
    simpl. f_equal; [|done]. unfold sortedInterface, Interface.withMethods.
    rewrite sortMethods_ascending by done. by destruct intf.
Qed.

Lemma alias_uniqueness_witness :
  ∃ pkg' g',
    Generate plainEnv canonicalOrder plainFlags newGenerator templatesPkg "mock_foo" ""
    = Some (pkg', g')
    ∧ (∀ p1 p2 a, packageMap g' !! p1 = Some a → packageMap g' !! p2 = Some a → p1 = p2)
    ∧ (∀ pth a, packageMap g' !! pth = Some a → a ∉ keywords ∧ a ≠ "any").
Proof.
  assert (∃ pkg' g',
    Generate plainEnv canonicalOrder plainFlags newGenerator templatesPkg "mock_foo" ""
    = Some (pkg', g')) as (pkg' & g' & HG).
  { vm_compute. eexists _, _. reflexivity. }
  exists pkg', g'. split; [exact HG|].
  exact (alias_uniqueness _ _ _ _ _ _ _ _ _ HG).
Defined.

Lemma Generate_model_frame_witness :
  ∃ pkg' g',
    Generate plainEnv canonicalOrder plainFlags newGenerator connPkg "mock_foo" ""
    = Some (pkg', g')
    ∧ Package.Name pkg' = Package.Name connPkg
    ∧ Package.PkgPath pkg' = Package.PkgPath connPkg
    ∧ Package.DotImports pkg' = Package.DotImports connPkg
    ∧ Package.Imports pkg' = Package.Imports connPkg
    ∧ Forall2 (λ intf intf',
                 Interface.Name intf' = Interface.Name intf
                 ∧ Interface.TypeParams intf' = Interface.TypeParams intf
                 ∧ Interface.Methods intf' ≡ₚ Interface.Methods intf
                 ∧ Sorted byMethodName (Interface.Methods intf'))
        (Package.Interfaces connPkg) (Package.Interfaces pkg')
    ∧ (Forall (λ intf, strictlyAscending (Interface.Methods intf))
         (Package.Interfaces connPkg)
       → pkg' = connPkg).
Proof.
  assert (∃ pkg' g',
    Generate plainEnv canonicalOrder plainFlags newGenerator connPkg "mock_foo" ""
    = Some (pkg', g')) as (pkg' & g' & HG).
  { vm_compute. eexists _, _. reflexivity. }
  exists pkg', g'. split; [exact HG|].
  exact (Generate_model_frame _ _ _ _ _ _ _ _ _ HG).
Defined.

(** ** The text [Generate] appends *)

Lemma Generate_text E ord flags g pkg outputPkgName outputPackagePath pkg' g' :
  Generate E ord flags g pkg outputPkgName outputPackagePath = Some (pkg', g') →
  let opp := effectiveOutputPackagePath flags pkg outputPkgName outputPackagePath in
  buf g' = buf g
           ++ headerText E flags g
           ++ packageClauseText flags outputPkgName g
           ++ importBlockText E (indent g)
                (importedEntries opp (rangeMap ord (packageMap g')))
                (Package.DotImports pkg)
           ++ directiveText E flags g
           ++ concat (interfaceText E ord flags opp g' <$> Package.Interfaces pkg).
Proof.
  rewrite Generate_spec.
  destruct (parseDefinedImports (imports flags)) as [definedImports|]; [|done].
  cbn [mbind option_bind]. cbv zeta. intros [= <- <-].
  rewrite interfaceText_emit, packageMap_emit. unfold importBlockText.
  cbn [buf emit set_buf set_packageMap packageMap].
  rewrite <- !(assoc_L (++)). reflexivity.
Qed.

(** C4 as stated fails on its first half: the block of [Writer] is written
    (line 11 of the text) before the block of [Closer] (line 47), the order
    of the model, although [Closer] sorts before [Writer]. *)
Lemma Generate_keeps_interface_order :
  ∃ pkg' g',
    Generate plainEnv canonicalOrder plainFlags newGenerator writerCloserPkg
      "mock_foo" "" = Some (pkg', g')
    ∧ Interface.Name <$> Package.Interfaces writerCloserPkg = ["Writer"; "Closer"]
    ∧ buf g' !! 11%nat = Some ("// MockWriter is a mock of Writer interface." +:+ nl)
    ∧ buf g' !! 47%nat = Some ("// MockCloser is a mock of Closer interface." +:+ nl)
    ∧ String.le "Closer" "Writer" ∧ ¬ String.le "Writer" "Closer".
Proof.
  assert (∃ pkg' g',
    Generate plainEnv canonicalOrder plainFlags newGenerator writerCloserPkg
      "mock_foo" "" = Some (pkg', g')
    ∧ buf g' !! 11%nat = Some ("// MockWriter is a mock of Writer interface." +:+ nl)
    ∧ buf g' !! 47%nat = Some ("// MockCloser is a mock of Closer interface." +:+ nl))
    as (pkg' & g' & HG & H11 & H47).
  { vm_compute. eexists _, _. split; [reflexivity|]. split; reflexivity. }
  exists pkg', g'. repeat (split; [done|]). vm_compute. intros [].
Qed.

(** C4, amended. [Generate] writes one block per interface in the order of
    [pkg.Interfaces] (it does not sort them); the block of an interface is
    its declarations followed by the blocks of its methods in ascending
    method-name order, each method of the interface exactly once. *)
Theorem Generate_block_order E ord flags g pkg outputPkgName outputPackagePath pkg' g' :
  Generate E ord flags g pkg outputPkgName outputPackagePath = Some (pkg', g') →
  let opp := effectiveOutputPackagePath flags pkg outputPkgName outputPackagePath in
  buf g' = buf g
           ++ (headerText E flags g
               ++ packageClauseText flags outputPkgName g
               ++ importBlockText E (indent g)
                    (importedEntries opp (rangeMap ord (packageMap g')))
                    (Package.DotImports pkg)
               ++ directiveText E flags g)
           ++ concat (interfaceText E ord flags opp g' <$> Package.Interfaces pkg)
  ∧ ∀ intf,
      let longTp := (formattedTypeParams g' intf opp).1 in
      let shortTp := (formattedTypeParams g' intf opp).2 in
      interfaceText E ord flags opp g' intf
      = interfaceHeadText g' intf longTp shortTp
        ++ concat (methodBlocksText E ord (mockName g' (Interface.Name intf))
                     (sortedInterface intf) opp longTp shortTp (typed flags) g'
                   <$> sortMethods (Interface.Methods intf))
      ∧ Sorted byMethodName (sortMethods (Interface.Methods intf))
      ∧ sortMethods (Interface.Methods intf) ≡ₚ Interface.Methods intf.
Proof.
  intros HG opp. split.
  - rewrite (Generate_text _ _ _ _ _ _ _ _ _ HG). fold opp.
    rewrite <- !(assoc_L (++)). reflexivity.
  - intros intf. split; [apply interfaceText_eq|].
    split; [apply sortMethods_Sorted|apply sortMethods_Permutation].
Qed.

Lemma Generate_block_order_witness :
  ∃ pkg' g',
    Generate plainEnv canonicalOrder plainFlags newGenerator writerCloserPkg
      "mock_foo" "" = Some (pkg', g')
    ∧ (let opp := effectiveOutputPackagePath plainFlags writerCloserPkg "mock_foo" "" in
       buf g' = buf newGenerator
                ++ (headerText plainEnv plainFlags newGenerator
                    ++ packageClauseText plainFlags "mock_foo" newGenerator
                    ++ importBlockText plainEnv (indent newGenerator)
                         (importedEntries opp (rangeMap canonicalOrder (packageMap g')))
                         (Package.DotImports writerCloserPkg)
                    ++ directiveText plainEnv plainFlags newGenerator)
                ++ concat (interfaceText plainEnv canonicalOrder plainFlags opp g'
                           <$> Package.Interfaces writerCloserPkg)
       ∧ ∀ intf,
           let longTp := (formattedTypeParams g' intf opp).1 in
           let shortTp := (formattedTypeParams g' intf opp).2 in
           interfaceText plainEnv canonicalOrder plainFlags opp g' intf
           = interfaceHeadText g' intf longTp shortTp
             ++ concat (methodBlocksText plainEnv canonicalOrder
                          (mockName g' (Interface.Name intf))
                          (sortedInterface intf) opp longTp shortTp
                          (typed plainFlags) g'
                        <$> sortMethods (Interface.Methods intf))
           ∧ Sorted byMethodName (sortMethods (Interface.Methods intf))
           ∧ sortMethods (Interface.Methods intf) ≡ₚ Interface.Methods intf).
Proof.
  assert (∃ pkg' g',
    Generate plainEnv canonicalOrder plainFlags newGenerator writerCloserPkg
      "mock_foo" "" = Some (pkg', g')) as (pkg' & g' & HG).
  { vm_compute. eexists _, _. reflexivity. }
  exists pkg', g'. split; [exact HG|].
  exact (Generate_block_order _ _ _ _ _ _ _ _ _ HG).
Defined.

(** ** Dot imports *)

Lemma resolvedPackageMap_dotImports E ord flags pkg dots outputPkgName
    outputPackagePath definedImports :
  resolvedPackageMap E ord flags (Package.withDotImports pkg dots) outputPkgName
    outputPackagePath definedImports
  = resolvedPackageMap E ord flags pkg outputPkgName outputPackagePath definedImports.
Proof. reflexivity. Qed.

(** C10. The import block [Generate] writes has, after the lines of the
    alias table, one line [. %q] per element of [pkg.DotImports], in the
    model's order and with its repetitions, whatever the output package
    path; and the alias table does not depend on the dot imports. *)
Theorem dot_imports_verbatim E ord flags g pkg outputPkgName outputPackagePath pkg' g' :
  Generate E ord flags g pkg outputPkgName outputPackagePath = Some (pkg', g') →
  let opp := effectiveOutputPackagePath flags pkg outputPkgName outputPackagePath in
  buf g' = buf g
           ++ (headerText E flags g ++ packageClauseText flags outputPkgName g)
           ++ [indent g +:+ "import (" +:+ nl]
           ++ (aliasedImportLine E (indent g +:+ tab)
               <$> importedEntries opp (rangeMap ord (packageMap g')))
           ++ ((λ pkgPath, (indent g +:+ tab) +:+ (". " +:+ Quote E pkgPath) +:+ nl)
               <$> Package.DotImports pkg)
           ++ [indent g +:+ ")" +:+ nl]
           ++ (directiveText E flags g
               ++ concat (interfaceText E ord flags opp g' <$> Package.Interfaces pkg))
  ∧ ∀ dotImports pkg2 g2,
      Generate E ord flags g (Package.withDotImports pkg dotImports) outputPkgName
        outputPackagePath = Some (pkg2, g2) →
      packageMap g2 = packageMap g'.
Proof.
  intros HG opp. split.
  - rewrite (Generate_text _ _ _ _ _ _ _ _ _ HG). fold opp. unfold importBlockText.
    rewrite <- !(assoc_L (++)). reflexivity.
  - intros dots pkg2 g2 HG2.
    apply Generate_packageMap in HG as (d1 & Hd1 & ->).
    apply Generate_packageMap in HG2 as (d2 & Hd2 & ->).
    rewrite resolvedPackageMap_dotImports. congruence.
Qed.

Lemma dot_imports_verbatim_witness :
  ∃ pkg' g',
    Generate plainEnv canonicalOrder plainFlags newGenerator selfPkg "foo"
      "example.com/foo" = Some (pkg', g')
    ∧ (let opp := effectiveOutputPackagePath plainFlags selfPkg "foo" "example.com/foo" in
       buf g' = buf newGenerator
                ++ (headerText plainEnv plainFlags newGenerator
                    ++ packageClauseText plainFlags "foo" newGenerator)
                ++ [indent newGenerator +:+ "import (" +:+ nl]
                ++ (aliasedImportLine plainEnv (indent newGenerator +:+ tab)
                    <$> importedEntries opp (rangeMap canonicalOrder (packageMap g')))
                ++ ((λ pkgPath, (indent newGenerator +:+ tab)
                                +:+ (". " +:+ Quote plainEnv pkgPath) +:+ nl)
                    <$> Package.DotImports selfPkg)
                ++ [indent newGenerator +:+ ")" +:+ nl]
                ++ (directiveText plainEnv plainFlags newGenerator
                    ++ concat (interfaceText plainEnv canonicalOrder plainFlags opp g'
                               <$> Package.Interfaces selfPkg))
       ∧ ∀ dotImports pkg2 g2,
           Generate plainEnv canonicalOrder plainFlags newGenerator
             (Package.withDotImports selfPkg dotImports) "foo" "example.com/foo"
           = Some (pkg2, g2) →
           packageMap g2 = packageMap g').
Proof.
  assert (∃ pkg' g',
    Generate plainEnv canonicalOrder plainFlags newGenerator selfPkg "foo"
      "example.com/foo" = Some (pkg', g')) as (pkg' & g' & HG).
  { vm_compute. eexists _, _. reflexivity. }
  exists pkg', g'. split; [exact HG|].
  exact (dot_imports_verbatim _ _ _ _ _ _ _ _ _ HG).
Defined.

(** ** Self-import elision *)

Lemma resolveAliases_skips_self E packagesName definedImports pkg :
  ∀ sortedPaths st,
    st.1 !! Package.PkgPath pkg = None →
    (foldl (resolveStep E packagesName definedImports pkg (Package.PkgPath pkg))
       st sortedPaths).1 !! Package.PkgPath pkg = None.
Proof.
  induction sortedPaths as [|pth paths IH]; intros [pm ln] Hst; simpl; [done|].
  apply IH. unfold resolveStep.
  rewrite (bool_decide_eq_true_2 (Package.PkgPath pkg = Package.PkgPath pkg)) by done.
  rewrite andb_true_r. case_bool_decide as Hpth; [done|]. simpl.
  by rewrite lookup_insert_ne.
Qed.

(** C9 as stated fails: with the output package path equal to the source
    package path, but an output package name [mock_foo] other than the
    model's [foo] and no [-self_package], the path is reset (lines 332-335),
    the import block has the line [foo "example.com/foo"] and the parameter
    type is written [foo.Item]. *)
Lemma Generate_imports_self_when_reset :
  ∃ pkg' g',
    Generate plainEnv canonicalOrder plainFlags newGenerator itemPkg "mock_foo"
      "example.com/foo" = Some (pkg', g')
    ∧ Package.PkgPath itemPkg = "example.com/foo"
    ∧ packageMap g' !! "example.com/foo" = Some "foo"
    ∧ buf g' !! 8%nat = Some (tab +:+ "foo " +:+ dq +:+ "example.com/foo" +:+ dq +:+ nl)
    ∧ buf g' !! 37%nat = Some ("func (m *MockStore) Put(item foo.Item) {" +:+ nl).
Proof.
  vm_compute. eexists _, _. split; [reflexivity|]. repeat split; reflexivity.
Qed.

(** ** Types are rendered for the output package *)

Section merge_sort_fmap.
Context {A B : Type} (f : A → B) (R : relation A) (R' : relation B).
Context `{!∀ x y, Decision (R x y)} `{!∀ x y, Decision (R' x y)}.
Hypothesis Hf : ∀ x y, R' (f x) (f y) ↔ R x y.

Lemma list_merge_fmap (l1 l2 : list A) :
  list_merge R' (f <$> l1) (f <$> l2) = f <$> list_merge R l1 l2.
Proof.
  revert l2. induction l1 as [|x1 l1 IH1]; intros l2.
  { by rewrite fmap_nil, !list_merge_nil_l. }
  induction l2 as [|x2 l2 IH2].
  { by rewrite fmap_nil, !list_merge_nil_r. }
  rewrite !fmap_cons, !list_merge_cons.
  destruct (decide (R x1 x2)) as [HR|HR].
  - rewrite decide_True by by apply Hf.
    rewrite fmap_cons. f_equal. rewrite <- IH1. by rewrite fmap_cons.
  - rewrite decide_False by by rewrite Hf.
    rewrite fmap_cons. f_equal. rewrite <- IH2. by rewrite fmap_cons.
Qed.

Lemma merge_list_to_stack_fmap (st : list (option (list A))) (l : list A) :
  merge_list_to_stack R' (mapStack f st) (f <$> l)
  = mapStack f (merge_list_to_stack R st l).
Proof.
  revert l. induction st as [|[l'|] st IH]; intros l; simpl; [done| |done].
  by rewrite list_merge_fmap, IH.
Qed.

Lemma merge_stack_fmap (st : list (option (list A))) :
  merge_stack R' (mapStack f st) = f <$> merge_stack R st.
Proof.
  induction st as [|[l'|] st IH]; simpl; [done| |done].
  by rewrite IH, list_merge_fmap.
Qed.

Lemma merge_sort_aux_fmap (st : list (option (list A))) (l : list A) :
  merge_sort_aux R' (mapStack f st) (f <$> l)
  = f <$> merge_sort_aux R st l.
Proof.
  revert st. induction l as [|x l IH]; intros st; simpl.
  - apply merge_stack_fmap.
  - rewrite <- IH. f_equal. apply (merge_list_to_stack_fmap st [x]).
Qed.

Lemma merge_sort_fmap (l : list A) : merge_sort R' (f <$> l) = f <$> merge_sort R l.
Proof. apply (merge_sort_aux_fmap []). Qed.
End merge_sort_fmap.

Lemma sortMethods_render pm pkgOverride (ms : list Method.t) :
  sortMethods (renderMethod pm pkgOverride <$> ms)
  = renderMethod pm pkgOverride <$> sortMethods ms.
Proof. unfold sortMethods. by apply merge_sort_fmap. Qed.

Lemma getArgNames_render ord g pm pkgOverride m in' :
  getArgNames ord g (renderMethod pm pkgOverride m) in' = getArgNames ord g m in'.
Proof.
  unfold getArgNames.
  assert ((if in' then Method.In (renderMethod pm pkgOverride m)
           else Method.Out (renderMethod pm pkgOverride m))
          = renderParam pm pkgOverride <$> (if in' then Method.In m else Method.Out m))
    as -> by by destruct in'.
  rewrite imap_fmap, length_fmap.
  change (Method.Variadic (renderMethod pm pkgOverride m))
    with (renderParam pm pkgOverride <$> Method.Variadic m).
  by destruct (Method.Variadic m).
Qed.

Lemma getArgTypes_render g pm pkgOverride m in' :
  packageMap g = pm →
  getArgTypes g (renderMethod pm pkgOverride m) pkgOverride in'
  = getArgTypes g m pkgOverride in'.
Proof.
  intros <-. unfold getArgTypes.
  assert ((if in' then Method.In (renderMethod (packageMap g) pkgOverride m)
           else Method.Out (renderMethod (packageMap g) pkgOverride m))
          = renderParam (packageMap g) pkgOverride
            <$> (if in' then Method.In m else Method.Out m))
    as -> by by destruct in'.
  rewrite <- list_fmap_compose.
  change (Method.Variadic (renderMethod (packageMap g) pkgOverride m))
    with (renderParam (packageMap g) pkgOverride <$> Method.Variadic m).
  by destruct (Method.Variadic m).
Qed.

Lemma GenerateMockMethod_render E ord mockType m pm pkgOverride shortTp g :
  packageMap g = pm →
  GenerateMockMethod E ord mockType (renderMethod pm pkgOverride m) pkgOverride shortTp g
  = GenerateMockMethod E ord mockType m pkgOverride shortTp g.
Proof.
  intros Hpm. unfold GenerateMockMethod.
  rewrite getArgNames_render, (getArgTypes_render g pm) by done. subst pm.
  change (Method.Out (renderMethod (packageMap g) pkgOverride m))
    with (renderParam (packageMap g) pkgOverride <$> Method.Out m).
  rewrite <- !list_fmap_compose, !length_fmap.
  change (Method.Variadic (renderMethod (packageMap g) pkgOverride m))
    with (renderParam (packageMap g) pkgOverride <$> Method.Variadic m).
  by destruct (Method.Variadic m).
Qed.

Lemma GenerateMockRecorderMethod_render ord intf m pm pkgOverride shortTp typed g :
  GenerateMockRecorderMethod ord intf (renderMethod pm pkgOverride m) shortTp typed g
  = GenerateMockRecorderMethod ord intf m shortTp typed g.
Proof.
  unfold GenerateMockRecorderMethod. rewrite getArgNames_render.
  change (Method.Variadic (renderMethod pm pkgOverride m))
    with (renderParam pm pkgOverride <$> Method.Variadic m).
  by destruct (Method.Variadic m).
Qed.

Lemma GenerateMockReturnCallMethod_render ord intf m pm pkgOverride longTp shortTp g :
  packageMap g = pm →
  GenerateMockReturnCallMethod ord intf (renderMethod pm pkgOverride m)
    pkgOverride longTp shortTp g
  = GenerateMockReturnCallMethod ord intf m pkgOverride longTp shortTp g.
Proof.
  intros Hpm. unfold GenerateMockReturnCallMethod.
  rewrite !getArgNames_render, !(getArgTypes_render g pm) by done. subst pm.
  change (Method.Out (renderMethod (packageMap g) pkgOverride m))
    with (renderParam (packageMap g) pkgOverride <$> Method.Out m).
  by rewrite <- list_fmap_compose.
Qed.

Lemma GenerateMockRecorderMethod_name ord intf intf' m shortTp typed g :
  Interface.Name intf' = Interface.Name intf →
  GenerateMockRecorderMethod ord intf' m shortTp typed g
  = GenerateMockRecorderMethod ord intf m shortTp typed g.
Proof. intros Hname. unfold GenerateMockRecorderMethod. by rewrite Hname. Qed.

Lemma GenerateMockReturnCallMethod_name ord intf intf' m pkgOverride longTp shortTp g :
  Interface.Name intf' = Interface.Name intf →
  GenerateMockReturnCallMethod ord intf' m pkgOverride longTp shortTp g
  = GenerateMockReturnCallMethod ord intf m pkgOverride longTp shortTp g.
Proof. intros Hname. unfold GenerateMockReturnCallMethod. by rewrite Hname. Qed.

Lemma methodBlocksText_render E ord mockType intf intf' pkgOverride longTp shortTp typed
    g m :
  Interface.Name intf' = Interface.Name intf →
  methodBlocksText E ord mockType intf' pkgOverride longTp shortTp typed g
    (renderMethod (packageMap g) pkgOverride m)
  = methodBlocksText E ord mockType intf pkgOverride longTp shortTp typed g m.
Proof.
  intros Hname. unfold methodBlocksText, GenerateMethodBlocks. cbv zeta.
  rewrite (GenerateMockMethod_render E ord mockType m (packageMap g)) by reflexivity.
  rewrite (GenerateMockRecorderMethod_render ord intf' m (packageMap g)).
  rewrite (GenerateMockRecorderMethod_name ord intf intf') by done.
  destruct typed; [|reflexivity].
  match goal with
  | |- context [GenerateMockReturnCallMethod _ _ _ _ _ _ ?G] =>
      assert (packageMap G = packageMap g) as HG
        by (by rewrite GenerateMockRecorderMethod_emit, GenerateMockMethod_emit);
      rewrite (GenerateMockReturnCallMethod_render ord intf' m (packageMap g)
                 pkgOverride longTp shortTp G HG)
  end.
  rewrite (GenerateMockReturnCallMethod_name ord intf intf') by done.
  reflexivity.
Qed.

Lemma formattedTypeParams_render g intf pkgOverride :
  formattedTypeParams g (renderInterface (packageMap g) pkgOverride intf) pkgOverride
  = formattedTypeParams g intf pkgOverride.
Proof.
  unfold formattedTypeParams.
  change (Interface.TypeParams (renderInterface (packageMap g) pkgOverride intf))
    with (renderParam (packageMap g) pkgOverride <$> Interface.TypeParams intf).
  destruct (Interface.TypeParams intf) as [|tp tps]; [done|].
  rewrite fmap_cons. cbv iota. rewrite <- !fmap_cons, <- !list_fmap_compose. done.
Qed.

Lemma interfaceHeadText_name g intf intf' longTp shortTp :
  Interface.Name intf' = Interface.Name intf →
  interfaceHeadText g intf' longTp shortTp = interfaceHeadText g intf longTp shortTp.
Proof. intros Hname. unfold interfaceHeadText, writeInterfaceHead. by rewrite Hname. Qed.

(** The text written for an interface is that of the interface with every
    type replaced by its rendering. *)
Lemma interfaceText_render E ord flags pkgOverride g intf :
  interfaceText E ord flags pkgOverride g
    (renderInterface (packageMap g) pkgOverride intf)
  = interfaceText E ord flags pkgOverride g intf.
Proof.
  rewrite !interfaceText_eq, formattedTypeParams_render.
  change (Interface.Methods (renderInterface (packageMap g) pkgOverride intf))
    with (renderMethod (packageMap g) pkgOverride <$> Interface.Methods intf).
  change (Interface.Name (renderInterface (packageMap g) pkgOverride intf))
    with (Interface.Name intf).
  rewrite sortMethods_render, <- list_fmap_compose.
  rewrite (interfaceHeadText_name g intf
             (renderInterface (packageMap g) pkgOverride intf)) by reflexivity.
  apply (f_equal (app _)), (f_equal (@concat string)).
  apply list_fmap_ext. intros _ m _. cbn [compose].
  by apply methodBlocksText_render.
Qed.

(** The struct of every mock holds a [*gomock.Controller], written with the
    literal qualifier. *)
Lemma interfaceText_gomock E ord flags pkgOverride g intf :
  indent g +:+ tab +:+ "ctrl     *gomock.Controller" +:+ nl
  ∈ interfaceText E ord flags pkgOverride g intf.
Proof.
  rewrite interfaceText_eq. apply elem_of_app. left.
  apply (list_elem_of_lookup_2 _ 3). unfold interfaceHeadText, writeInterfaceHead.
  rewrite <- (emit_nil (set_buf g [])). gen_norm. rewrite buf_emit_on_empty.
  simpl. by rewrite !app_assoc_s.
Qed.

(** C9, amended. When the output package path [Generate] works with -- the
    one it is given, unless the output package name differs from the model's
    and [-self_package] is unset, in which case it is reset to the empty
    path -- equals the source package path, the alias table has no entry for
    that path, so none of the alias lines of the import block is for it (a
    dot import of the path, if the model has one, is still written). Every
    type of the model -- of a parameter, a result, the variadic parameter or
    a type parameter -- enters the text only as what its [String] method
    returns for the alias table and that path as the package whose qualifier
    is left out, so a named type of the path is written as its bare name.
    What the generator writes of its own is not affected: the struct of
    every mock still reads [*gomock.Controller], with the literal
    qualifier. *)
Theorem self_import_elided E ord flags g pkg outputPkgName outputPackagePath pkg' g' :
  Generate E ord flags g pkg outputPkgName outputPackagePath = Some (pkg', g') →
  outputPackagePath = Package.PkgPath pkg →
  outputPkgName = Package.Name pkg ∨ selfPackage flags ≠ "" →
  packageMap g' !! Package.PkgPath pkg = None
  ∧ buf g' = buf g
             ++ (headerText E flags g ++ packageClauseText flags outputPkgName g)
             ++ importBlockText E (indent g)
                  (importedEntries (Package.PkgPath pkg) (rangeMap ord (packageMap g')))
                  (Package.DotImports pkg)
             ++ (directiveText E flags g
                 ++ concat (interfaceText E ord flags (Package.PkgPath pkg) g'
                            <$> Package.Interfaces pkg))
  ∧ Forall (λ kv, kv.1 ≠ Package.PkgPath pkg)
      (importedEntries (Package.PkgPath pkg) (rangeMap ord (packageMap g')))
  ∧ (∀ intf,
       interfaceText E ord flags (Package.PkgPath pkg) g' intf
       = interfaceText E ord flags (Package.PkgPath pkg) g'
           (renderInterface (packageMap g') (Package.PkgPath pkg) intf))
  ∧ (∀ name type,
       renderParam (packageMap g') (Package.PkgPath pkg)
         {| Param.Name := name; Param.Type' := NamedType (Package.PkgPath pkg) type |}
       = {| Param.Name := name; Param.Type' := PredeclaredType type |})
  ∧ (∀ intf,
       indent g +:+ tab +:+ "ctrl     *gomock.Controller" +:+ nl
       ∈ interfaceText E ord flags (Package.PkgPath pkg) g' intf)
  ∧ (∀ type, Type_String (NamedType (Package.PkgPath pkg) type) (packageMap g')
               (Package.PkgPath pkg) = type)
  ∧ (∀ m i name type,
       Method.In m !! i = Some {| Param.Name := name;
                                  Param.Type' := NamedType (Package.PkgPath pkg) type |} →
       getArgTypes g' m (Package.PkgPath pkg) true !! i = Some type).
Proof.
  intros HG -> Hguard.
  assert (effectiveOutputPackagePath flags pkg outputPkgName (Package.PkgPath pkg)
          = Package.PkgPath pkg) as Hopp.
  { unfold effectiveOutputPackagePath.
    destruct Hguard as [->|Hself].
    - by rewrite bool_decide_eq_false_2 by naive_solver.
    - rewrite (bool_decide_eq_false_2 (selfPackage flags = "")) by done.
      by rewrite andb_false_r. }
  pose proof (Generate_text _ _ _ _ _ _ _ _ _ HG) as Htext. cbv zeta in Htext.
  rewrite Hopp in Htext.
  assert (indent g' = indent g) as Hind.
  { rewrite Generate_spec in HG.
    destruct (parseDefinedImports (imports flags)); [|done].
    cbn [mbind option_bind] in HG. cbv zeta in HG. by injection HG as _ <-. }
  split; [|split; [|split; [|split; [|split; [|split; [|split]]]]]].
  - apply Generate_packageMap in HG as (definedImports & _ & ->).
    unfold resolvedPackageMap, resolveAliases. rewrite Hopp.
    apply resolveAliases_skips_self. apply lookup_empty.
  - rewrite Htext, <- !(assoc_L (++)). reflexivity.
  - unfold importedEntries. apply Forall_forall. intros kv Hkv.
    by apply list_elem_of_filter in Hkv as [? _].
  - intros intf. symmetry. apply interfaceText_render.
  - intros name type. unfold renderParam. simpl. by rewrite decide_True.
  - intros intf. rewrite <- Hind. apply interfaceText_gomock.
  - intros type. simpl. by rewrite decide_True.
  - intros m i name type Hi. unfold getArgTypes.
    assert (((λ p, Type_String (Param.Type' p) (packageMap g') (Package.PkgPath pkg))
               <$> Method.In m) !! i = Some type) as Hlook.
    { rewrite list_lookup_fmap, Hi. simpl. by rewrite decide_True. }
    destruct (Method.Variadic m); [|done].
    rewrite lookup_app_l; [done|]. by apply lookup_lt_Some in Hlook.
Qed.

Lemma self_import_elided_witness :
  ∃ pkg' g',
    Generate plainEnv canonicalOrder plainFlags newGenerator itemPkg "foo"
      "example.com/foo" = Some (pkg', g')
    ∧ "example.com/foo" = Package.PkgPath itemPkg
    ∧ ("foo" = Package.Name itemPkg ∨ selfPackage plainFlags ≠ "")
    ∧ packageMap g' !! Package.PkgPath itemPkg = None
    ∧ buf g' = buf newGenerator
               ++ (headerText plainEnv plainFlags newGenerator
                   ++ packageClauseText plainFlags "foo" newGenerator)
               ++ importBlockText plainEnv (indent newGenerator)
                    (importedEntries (Package.PkgPath itemPkg)
                       (rangeMap canonicalOrder (packageMap g')))
                    (Package.DotImports itemPkg)
               ++ (directiveText plainEnv plainFlags newGenerator
                   ++ concat (interfaceText plainEnv canonicalOrder plainFlags
                                (Package.PkgPath itemPkg) g'
                              <$> Package.Interfaces itemPkg))
    ∧ Forall (λ kv, kv.1 ≠ Package.PkgPath itemPkg)
        (importedEntries (Package.PkgPath itemPkg)
           (rangeMap canonicalOrder (packageMap g')))
    ∧ (∀ intf,
         interfaceText plainEnv canonicalOrder plainFlags (Package.PkgPath itemPkg) g'
           intf
         = interfaceText plainEnv canonicalOrder plainFlags (Package.PkgPath itemPkg) g'
             (renderInterface (packageMap g') (Package.PkgPath itemPkg) intf))
    ∧ (∀ name type,
         renderParam (packageMap g') (Package.PkgPath itemPkg)
           {| Param.Name := name;
              Param.Type' := NamedType (Package.PkgPath itemPkg) type |}
         = {| Param.Name := name; Param.Type' := PredeclaredType type |})
    ∧ (∀ intf,
         indent newGenerator +:+ tab +:+ "ctrl     *gomock.Controller" +:+ nl
         ∈ interfaceText plainEnv canonicalOrder plainFlags (Package.PkgPath itemPkg) g'
             intf)
    ∧ (∀ type, Type_String (NamedType (Package.PkgPath itemPkg) type) (packageMap g')
                 (Package.PkgPath itemPkg) = type)
    ∧ (∀ m i name type,
         Method.In m !! i
         = Some {| Param.Name := name;
                   Param.Type' := NamedType (Package.PkgPath itemPkg) type |} →
         getArgTypes g' m (Package.PkgPath itemPkg) true !! i = Some type).
Proof.
  assert (∃ pkg' g',
    Generate plainEnv canonicalOrder plainFlags newGenerator itemPkg "foo"
      "example.com/foo" = Some (pkg', g')) as (pkg' & g' & HG).
  { vm_compute. eexists _, _. reflexivity. }
  exists pkg', g'. split; [exact HG|]. split; [reflexivity|].
  split; [left; reflexivity|].
  exact (self_import_elided _ _ _ _ _ _ _ _ _ HG eq_refl (or_introl eq_refl)).
Defined.

(** With the gomock package itself as the source and the output package,
    the import of gomock is dropped like any self import, and the text still
    refers to [gomock.Controller]. *)
Lemma Generate_keeps_gomock_qualifier :
  ∃ pkg' g',
    Generate plainEnv canonicalOrder plainFlags newGenerator
      {| Package.Name := "gomock"; Package.PkgPath := gomockImportPath;
         Package.Interfaces :=
           [ {| Interface.Name := "Matcher"; Interface.Methods := [method "String"];
                Interface.TypeParams := [] |} ];
         Package.DotImports := []; Package.Imports := ∅ |}
      "gomock" gomockImportPath = Some (pkg', g')
    ∧ packageMap g' = {["reflect" := "reflect"]}
    ∧ take 5 (drop 6 (buf g'))
      = [ "import (" +:+ nl;
          aliasedImportLine plainEnv tab ("reflect", "reflect");
          ")" +:+ nl;
          nl;
          "// MockMatcher is a mock of Matcher interface." +:+ nl ]
    ∧ tab +:+ "ctrl     *gomock.Controller" +:+ nl ∈ buf g'.
Proof.
  eexists _, _. split; [vm_compute; reflexivity|].
  split; [by vm_compute|]. split; [vm_compute; reflexivity|].
  apply (list_elem_of_lookup_2 _ 12). vm_compute. reflexivity.
Qed.

(** ** Determinism *)















(** ** Variadic methods *)






(** ** Argument names *)


(** C6 fails on the code for the variadic parameter: [Log(_ ...any)] keeps
    the blank name [_] for it, where a fixed parameter would be renamed
    [arg0], and the forwarding method ranges over [_]. *)
Theorem getArgNames_blank_variadic :
  getArgNames canonicalOrder newGenerator logMethod true = ["_"]
  ∧ methodText plainEnv canonicalOrder "MockLogger" logMethod "" "" newGenerator
    !! 4%nat = Some (tab +:+ "for _, a := range _ {" +:+ nl)
  ∧ getArgNames canonicalOrder newGenerator
      {| Method.Name := "Log"; Method.In := [param "_" "any"]; Method.Out := [];
         Method.Variadic := None |} true = ["arg0"].
Proof. vm_compute. repeat split; reflexivity. Qed.

(** ** [sanitize] *)

Lemma runeString_nonempty (r : rune) : runeString r ≠ "".
Proof. unfold runeString. by repeat case_match. Qed.

Lemma sanitizedRune_nonempty E i r : sanitizedRune E i r ≠ "".
Proof. unfold sanitizedRune. destruct (keptAt E i r); [apply runeString_nonempty|done]. Qed.

Lemma app_nonempty (s t : string) : t ≠ "" → s +:+ t ≠ "".
Proof. intros Ht. destruct s; [done|]. rewrite app_cons. done. Qed.

Lemma sanitize_loop E (rs : list rune) :
  ∀ (t : string) (k : nat),
    (t = "" ↔ k = 0%nat) →
    foldl (sanitizeStep E) t rs
    = t +:+ foldr String.app "" (imap (λ i, sanitizedRune E (k + i)) rs).
Proof.
  induction rs as [|r rs IH]; intros t k Hk; simpl.
  - by rewrite app_nil_r.
  - assert (sanitizeStep E t r = t +:+ sanitizedRune E k r) as ->.
    { unfold sanitizeStep, sanitizedRune, keptAt. case_decide as Ht.
      - apply Hk in Ht as ->. by destruct (_ || _).
      - destruct k as [|k]; [by destruct Ht; apply Hk|]. by destruct (_ || _ || _). }
    rewrite (IH _ (S k)).
    + rewrite app_assoc_s. replace (k + 0)%nat with k by lia. do 2 f_equal.
      f_equal. apply imap_ext. intros i x _. simpl. f_equal. lia.
    + split; [|done]. intros Hempty. exfalso. revert Hempty.
      apply app_nonempty, sanitizedRune_nonempty.
Qed.

(** C8 as stated fails: [sanitize] does not remove a rune it rejects, it
    writes an underscore in its place, and an input of two rejected runes
    becomes two underscores, not a one-letter placeholder. *)
Lemma sanitize_replaces_rejected_runes :
  sanitize plainEnv "a-b" = "a_b"
  ∧ sanitize plainEnv "a-b" ≠ "ab"
  ∧ sanitize plainEnv "--" = "__"
  ∧ String.length (sanitize plainEnv "--") ≠ 1%nat
  ∧ sanitize plainEnv (Base "example.com/go-mock.v2") = "go_mock_v2".
Proof. vm_compute. repeat split; try reflexivity; discriminate. Qed.

(** C8, amended. When [go list] reports no name for an import path (and no
    alias is given for it with [-imports]), the alias is derived from
    [sanitize(path.Base(pth))], where [sanitize] maps the runes of the final
    path segment one by one: a letter or underscore is kept, a digit is kept
    except in first position, any other rune is replaced by an underscore
    (letters and digits in the sense of [unicode.IsLetter] and
    [unicode.IsDigit]); only when the result is the one underscore is it
    replaced by [x]. *)
Theorem sanitize_fallback E packagesName definedImports pkg outputPackagePath
    packageMap localNames pth :
  packagesName !! pth = None →
  definedImports !! pth = None →
  ¬ (pth = Package.PkgPath pkg ∧ outputPackagePath = Package.PkgPath pkg) →
  let t := foldr String.app "" (imap (sanitizedRune E) (runes (Base pth))) in
  sanitize E (Base pth) = (if decide (t = "_") then "x" else t)
  ∧ (resolveStep E packagesName definedImports pkg outputPackagePath
       (packageMap, localNames) pth).1 !! pth
    = Some (uniqueName localNames (sanitize E (Base pth)) (sanitize E (Base pth))).
Proof.
  intros Hpn Hdef Hself t. split.
  - unfold sanitize. rewrite (sanitize_loop E _ "" 0%nat) by done. done.
  - unfold resolveStep. rewrite Hpn, Hdef.
    destruct (bool_decide (pth = _) && bool_decide (_ = _)) eqn:Hb.
    + apply andb_true_iff in Hb as [?%bool_decide_eq_true ?%bool_decide_eq_true]. tauto.
    + simpl. apply lookup_insert_eq.
Qed.

Lemma sanitize_fallback_witness :
  (∅ : gmap string string) !! "example.com/go-mock.v2" = None
  ∧ (∅ : gmap string string) !! "example.com/go-mock.v2" = None
  ∧ ¬ ("example.com/go-mock.v2" = Package.PkgPath connPkg
       ∧ "" = Package.PkgPath connPkg)
  ∧ (let t := foldr String.app ""
                (imap (sanitizedRune plainEnv) (runes (Base "example.com/go-mock.v2"))) in
     sanitize plainEnv (Base "example.com/go-mock.v2")
     = (if decide (t = "_") then "x" else t)
     ∧ (resolveStep plainEnv ∅ ∅ connPkg "" (∅, ∅) "example.com/go-mock.v2").1
         !! "example.com/go-mock.v2"
       = Some (uniqueName ∅ (sanitize plainEnv (Base "example.com/go-mock.v2"))
                 (sanitize plainEnv (Base "example.com/go-mock.v2")))).
Proof.
  assert (¬ ("example.com/go-mock.v2" = Package.PkgPath connPkg
             ∧ "" = Package.PkgPath connPkg)) as Hself by (intros [? _]; discriminate).
  split; [reflexivity|]. split; [reflexivity|]. split; [exact Hself|].
  exact (sanitize_fallback plainEnv ∅ ∅ connPkg "" ∅ ∅ "example.com/go-mock.v2"
           eq_refl eq_refl Hself).
Defined.

(** ** More on the identifier allocator *)

Lemma allocateIdentifier_fresh (o : gset string) (want : string) :
  (allocateIdentifier o want).1 ∉ o
  ∧ (allocateIdentifier o want).2 = {[(allocateIdentifier o want).1]} ∪ o.
Proof.
  destruct (allocateLoop_run want o (S (size o)) o 2) as (N & _ & Hrun & Hfree & _);
    [lia|done|lia|].
  change (candidate want (2 - 1)) with want in Hrun.
  unfold allocateIdentifier. rewrite Hrun. done.
Qed.

(** X1. Two identifiers allocated one after the other from an allocator seeded
    with [taken] (as the receiver and the temporaries of a method body are)
    differ from each other and from every name in [taken], whatever names
    were asked for; the allocator then holds [taken] and the two. *)
Theorem allocateIdentifier_twice (taken : list string) (want1 want2 : string) :
  let r1 := allocateIdentifier (newIdentifierAllocator taken) want1 in
  let r2 := allocateIdentifier r1.2 want2 in
  r1.1 ∉ taken ∧ r2.1 ∉ taken ∧ r1.1 ≠ r2.1
  ∧ ∀ x, x ∈ r2.2 ↔ x ∈ taken ∨ x = r1.1 ∨ x = r2.1.
Proof.
  intros r1 r2.
  destruct (allocateIdentifier_fresh (newIdentifierAllocator taken) want1) as [H1 E1].
  destruct (allocateIdentifier_fresh r1.2 want2) as [H2 E2].
  fold r1 in H1, E1. fold r2 in H2, E2. rewrite E1 in H2.
  unfold newIdentifierAllocator in *.
  rewrite elem_of_list_to_set in H1.
  rewrite not_elem_of_union, elem_of_singleton, elem_of_list_to_set in H2.
  destruct H2 as [Hne H2]. repeat split; try done; try congruence.
  - rewrite E2, E1. set_solver.
  - rewrite E2, E1. set_solver.
Qed.

(** X2. The loop that names the return values (lines 645-649) hands out one name
    per return value; the names are pairwise distinct and none of them was
    in the allocator before, so none is a parameter name, the receiver or a
    temporary; names already in the allocator stay in it. *)
Theorem castReturns_names_fresh (idRet : string) (rets : list string) (i : nat)
    (ia : gset string) (g : generator) :
  let r := castReturns idRet i rets ia g in
  length r.1.1 = length rets
  ∧ NoDup r.1.1
  ∧ (∀ name, name ∈ r.1.1 → name ∉ ia)
  ∧ (∀ x, x ∈ r.1.2 ↔ x ∈ ia ∨ x ∈ r.1.1).
Proof.
  revert i ia g. induction rets as [|t rets IH]; intros i ia g; simpl.
  - split; [done|]. split; [constructor|]. split; [intros ? []%elem_of_nil|].
    intros x. set_solver.
  - destruct (allocateIdentifier_fresh ia ("ret" +:+ Itoa (Z.of_nat i))) as [Hfresh Hset].
    destruct (allocateIdentifier ia _) as [retName ia'] eqn:Halloc. simpl in Hfresh, Hset.
    match goal with
    | |- context [castReturns idRet (S i) rets ia' ?G] =>
        specialize (IH (S i) ia' G);
        destruct (castReturns idRet (S i) rets ia' G) as [[retNames ia''] g']
    end.
    simpl in *. destruct IH as (Hlen & Hnd & Hnew & Hall). subst ia'.
    split; [by rewrite Hlen|]. split; [|split].
    + apply NoDup_cons. split; [|done]. intros Hin. apply Hnew in Hin. set_solver.
    + intros name [->|Hin]%elem_of_cons; [done|]. apply Hnew in Hin. set_solver.
    + intros x. rewrite Hall, elem_of_cons. set_solver.
Qed.

(** ** More on argument names and types *)

(** X3. [nameExistsAsPackage] answers whether some import path has the name as
    its alias, in whatever order the alias table is ranged over. *)
Theorem nameExistsAsPackage_iff (ord : MapOrder) (g : generator) (name : string) :
  nameExistsAsPackage ord g name = true ↔ ∃ pth, packageMap g !! pth = Some name.
Proof.
  unfold nameExistsAsPackage. rewrite existsb_exists. split.
  - intros ([pth a] & Hin & Ha). apply bool_decide_eq_true in Ha. simpl in Ha. subst a.
    exists pth. apply list_elem_of_In in Hin. rewrite rangeMap_perm in Hin.
    by apply elem_of_map_to_list in Hin.
  - intros [pth Hpth]. exists (pth, name). split.
    + apply list_elem_of_In. rewrite rangeMap_perm. by apply elem_of_map_to_list.
    + by apply bool_decide_eq_true.
Qed.

(** X4. For the inputs there are as many argument names as argument types. For
    the outputs [getArgTypes] still appends the type of the variadic
    parameter, which [getArgNames] leaves out: a variadic method has one
    type more than it has return names. In both cases the names never
    outnumber the types, so [makeArgString] does not index out of range. *)
Theorem argNames_argTypes_length (ord : MapOrder) (g : generator) (m : Method.t)
    (pkgOverride : string) :
  length (getArgNames ord g m true) = length (getArgTypes g m pkgOverride true)
  ∧ length (getArgNames ord g m false) = length (Method.Out m)
  ∧ length (getArgTypes g m pkgOverride false)
    = (length (Method.Out m) + if Method.Variadic m is Some _ then 1 else 0)%nat
  ∧ ∀ in', (length (getArgNames ord g m in') ≤ length (getArgTypes g m pkgOverride in'))%nat.
Proof.
  assert (∀ in', length (getArgNames ord g m in')
                 = (length (if in' then Method.In m else Method.Out m)
                    + if Method.Variadic m is Some _ then if in' then 1 else 0 else 0)%nat) as Hn.
  { intros in'. unfold getArgNames.
    destruct (Method.Variadic m); [destruct in'|];
      rewrite ?length_app, length_imap; simpl; lia. }
  assert (∀ in', length (getArgTypes g m pkgOverride in')
                 = (length (if in' then Method.In m else Method.Out m)
                    + if Method.Variadic m is Some _ then 1 else 0)%nat) as Ht.
  { intros in'. unfold getArgTypes.
    destruct (Method.Variadic m); rewrite ?length_app, length_fmap; simpl; lia. }
  split; [|split; [|split]].
  - rewrite Hn, Ht. by destruct (Method.Variadic m).
  - rewrite Hn. destruct (Method.Variadic m); lia.
  - by rewrite Ht.
  - intros in'. rewrite Hn, Ht. destruct (Method.Variadic m), in'; lia.
Qed.

(** ** [makeArgString] *)

Lemma Join_cons (e : string) (rest : list string) (sep : string) :
  rest ≠ [] → Join (e :: rest) sep = e +:+ sep +:+ Join rest sep.
Proof. by destruct rest. Qed.

Lemma makeArgString_entries (argNames argTypes : list string) :
  makeArgString argNames argTypes = Join (imap (argEntry argTypes) argNames) ", ".
Proof. reflexivity. Qed.

Lemma argEntry_S (t : string) (ts : list string) (i : nat) (name : string) :
  argEntry (t :: ts) (S i) name = argEntry ts i name.
Proof.
  unfold argEntry. change (S i + 1)%nat with (S (i + 1)).
  change ((t :: ts) !!! S i) with (ts !!! i).
  change ((t :: ts) !!! S (i + 1)%nat) with (ts !!! (i + 1)%nat).
  rewrite (bool_decide_ext (S (i + 1) < length (t :: ts))%nat (i + 1 < length ts)%nat);
    [done|simpl; lia].
Qed.

(** X5. Parameters that all have the same type are written as the list of their
    names followed by the type, once. *)
Theorem makeArgString_same_type (argNames : list string) (t : string) :
  argNames ≠ [] →
  makeArgString argNames (replicate (length argNames) t)
  = Join argNames ", " +:+ " " +:+ t.
Proof.
  rewrite makeArgString_entries.
  induction argNames as [|x [|y ys] IH]; intros Hne; [done|done|].
  specialize (IH ltac:(done)).
  change (replicate (length (x :: y :: ys)) t)
    with (t :: replicate (length (y :: ys)) t).
  rewrite imap_cons.
  rewrite (imap_ext _ (argEntry (replicate (length (y :: ys)) t)))
    by (intros; apply argEntry_S).
  rewrite Join_cons by done. rewrite IH.
  rewrite (Join_cons x) by done.
  unfold argEntry at 1. simpl length.
  rewrite bool_decide_eq_true_2 by lia.
  rewrite bool_decide_eq_true_2 by done.
  simpl andb. cbv iota. by rewrite !app_assoc_s.
Qed.

Lemma makeArgString_same_type_witness :
  makeArgString ["x"; "y"; "z"] ["int"; "int"; "int"] = "x, y, z int".
Proof. apply (makeArgString_same_type ["x"; "y"; "z"] "int"). done. Defined.

(** X6. When no two neighbouring types are equal nothing is left out: every
    parameter is written as its name followed by its type. *)
Theorem makeArgString_distinct_neighbours (argNames argTypes : list string) :
  (length argNames ≤ length argTypes)%nat →
  (∀ i t t', argTypes !! i = Some t → argTypes !! S i = Some t' → t ≠ t') →
  makeArgString argNames argTypes
  = Join (zip_with (λ name t, name +:+ " " +:+ t) argNames argTypes) ", ".
Proof.
  intros Hlen Hdiff. rewrite makeArgString_entries. f_equal.
  apply list_eq. intros i. rewrite list_lookup_imap, lookup_zip_with.
  destruct (argNames !! i) as [name|] eqn:Hname; [|done]. simpl.
  apply lookup_lt_Some in Hname.
  destruct (lookup_lt_is_Some_2 argTypes i ltac:(lia)) as [t Ht].
  rewrite Ht. simpl. f_equal. unfold argEntry.
  rewrite (list_lookup_total_correct _ _ _ Ht).
  destruct (decide (i + 1 < length argTypes)%nat) as [Hlt|Hge].
  - destruct (lookup_lt_is_Some_2 argTypes (i + 1) Hlt) as [t' Ht'].
    rewrite (list_lookup_total_correct _ _ _ Ht').
    replace (i + 1)%nat with (S i) in Ht' by lia.
    rewrite (bool_decide_eq_false_2 (t = t')) by eauto.
    by rewrite andb_false_r.
  - by rewrite bool_decide_eq_false_2.
Qed.

Lemma makeArgString_distinct_neighbours_witness :
  makeArgString ["x"; "y"; "z"] ["int"; "string"; "int"] = "x int, y string, z int".
Proof.
  apply (makeArgString_distinct_neighbours ["x"; "y"; "z"] ["int"; "string"; "int"]).
  - simpl. lia.
  - intros [|[|[|i]]] t t'; simpl; intros [= <-] [= <-]; done.
Defined.

(** ** The recorder method *)

Lemma getArgNames_by_name (ord : MapOrder) (g : generator) (m m' : Method.t) :
  Param.Name <$> Method.In m = Param.Name <$> Method.In m' →
  Param.Name <$> Method.Variadic m = Param.Name <$> Method.Variadic m' →
  getArgNames ord g m true = getArgNames ord g m' true.
Proof.
  intros Hin Hv. unfold getArgNames.
  assert (length (Method.In m) = length (Method.In m')) as Hlen.
  { by rewrite <- (length_fmap Param.Name (Method.In m)), Hin, length_fmap. }
  set (f := λ (i : nat) (name : string),
              if bool_decide (name = "") || bool_decide (name = "_")
                 || nameExistsAsPackage ord g name
              then "arg" +:+ Itoa (Z.of_nat i) else name).
  assert (∀ l, imap (λ i p, let name := Param.Name p in
                            if bool_decide (name = "") || bool_decide (name = "_")
                               || nameExistsAsPackage ord g name
                            then "arg" +:+ Itoa (Z.of_nat i) else name) l
               = imap f (Param.Name <$> l)) as Himap.
  { intros l. rewrite imap_fmap. by apply imap_ext. }
  rewrite !Himap, Hin, Hlen.
  destruct (Method.Variadic m) as [v|], (Method.Variadic m') as [v'|];
    simpl in Hv; try done.
  injection Hv as Hv. by rewrite Hv.
Qed.

(** X7. The recorder method is written from the method's name and the names of
    its parameters only: two methods that differ in nothing but the types of
    their parameters and results get the same recorder method, every
    argument being of type [any]. *)
Theorem recorder_ignores_types (ord : MapOrder) (intf : Interface.t)
    (m m' : Method.t) (shortTp : string) (typed : bool) (g : generator) :
  Method.Name m = Method.Name m' →
  Param.Name <$> Method.In m = Param.Name <$> Method.In m' →
  Param.Name <$> Method.Variadic m = Param.Name <$> Method.Variadic m' →
  GenerateMockRecorderMethod ord intf m shortTp typed g
  = GenerateMockRecorderMethod ord intf m' shortTp typed g.
Proof.
  intros Hname Hin Hv. unfold GenerateMockRecorderMethod.
  rewrite (getArgNames_by_name ord g m m' Hin Hv), Hname.
  destruct (Method.Variadic m) as [v|], (Method.Variadic m') as [v'|];
    simpl in Hv; try done.
Qed.

Lemma recorder_ignores_types_witness :
  GenerateMockRecorderMethod canonicalOrder calcIntf addMethod "" false newGenerator
  = GenerateMockRecorderMethod canonicalOrder calcIntf
      {| Method.Name := "Add";
         Method.In := [param "a" "[]byte"; param "b" "int"];
         Method.Out := [];
         Method.Variadic := Some (param "c" "string") |} "" false newGenerator.
Proof. apply recorder_ignores_types; reflexivity. Defined.

(** ** More on the import alias resolver *)

Lemma uniqueNameLoop_least (localNames : gset string) (base : string) :
  ∀ (fuel : nat) (X : gset string) (i : Z),
    (∀ j, i - 1 ≤ j → base +:+ Itoa j ∈ refusedNames localNames → base +:+ Itoa j ∈ X) →
    (size X < fuel)%nat →
    ∃ N, i - 1 ≤ N
       ∧ uniqueNameLoop fuel localNames base (base +:+ Itoa (i - 1)) i
         = Some (base +:+ Itoa N)
       ∧ base +:+ Itoa N ∉ refusedNames localNames
       ∧ ∀ M, i - 1 ≤ M < N → base +:+ Itoa M ∈ refusedNames localNames.
Proof.
  induction fuel as [|fuel IH]; intros X i HX Hsize; [lia|].
  simpl. destruct (_ || _ || _) eqn:Hrefused.
  - apply refused_iff in Hrefused.
    destruct (IH (X ∖ {[base +:+ Itoa (i - 1)]}) (i + 1))
      as (N & HN & Hrun & Hfree & Hbelow).
    + intros j Hj Hjr. apply elem_of_difference. split; [apply HX; [lia|done]|].
      rewrite elem_of_singleton. intros Heq%numbered_inj. lia.
    + assert (X ∖ {[base +:+ Itoa (i - 1)]} ⊂ X) as Hsub.
      { apply subset_difference_elem_of, HX; [lia|done]. }
      apply subset_size in Hsub. lia.
    + exists N. replace (i + 1 - 1) with i in * by lia.
      split; [lia|]. split; [done|]. split; [done|].
      intros M HM. destruct (decide (M = i - 1)) as [->|]; [done|]. apply Hbelow. lia.
  - exists (i - 1). split; [lia|]. split; [done|]. split.
    + rewrite <- refused_iff. by rewrite Hrefused.
    + intros M HM. lia.
Qed.

(** X8. The loop of line 426 keeps the name it is entered with (the base name,
    or the one given with [-imports]) when that name is free. Otherwise it
    hands out [base0], [base1], ..., the first of them that is free: the
    numbered names are built on the base name even when the refused name
    came from [-imports]. *)
Theorem uniqueName_least (localNames : gset string) (base pkgName : string) :
  (pkgName ∉ refusedNames localNames →
   uniqueName localNames base pkgName = pkgName)
  ∧ (pkgName ∈ refusedNames localNames →
     ∃ N, 0 ≤ N
        ∧ uniqueName localNames base pkgName = base +:+ Itoa N
        ∧ base +:+ Itoa N ∉ refusedNames localNames
        ∧ ∀ M, 0 ≤ M < N → base +:+ Itoa M ∈ refusedNames localNames).
Proof.
  unfold uniqueName. rewrite <- refused_iff.
  change (uniqueNameLoop (S (S (size (refusedNames localNames)))) localNames base pkgName 0)
    with (if bool_decide (pkgName ∈ localNames) || IsKeyword pkgName
             || bool_decide (pkgName = "any")
          then uniqueNameLoop (S (size (refusedNames localNames))) localNames base
                 (base +:+ Itoa 0) (0 + 1)
          else Some pkgName).
  destruct (_ || _ || _) eqn:Hrefused.
  - split; [done|]. intros _.
    destruct (uniqueNameLoop_least localNames base
                (S (size (refusedNames localNames))) (refusedNames localNames) 1)
      as (N & HN & Hrun & Hfree & Hbelow); [done|lia|].
    change (1 - 1) with 0 in *. change (0 + 1) with 1. rewrite Hrun. by exists N.
  - split; [done|]. intros [=].
Qed.

Lemma resolve_fold_dom E packagesName definedImports pkg outputPackagePath :
  ∀ (sortedPaths : list string) (st : gmap string string * gset string) (pth : string),
    is_Some ((foldl (resolveStep E packagesName definedImports pkg outputPackagePath)
                st sortedPaths).1 !! pth)
    ↔ is_Some (st.1 !! pth)
      ∨ (pth ∈ sortedPaths
         ∧ ¬ (pth = Package.PkgPath pkg ∧ outputPackagePath = Package.PkgPath pkg)).
Proof.
  induction sortedPaths as [|q sortedPaths IH]; intros st pth; simpl.
  - rewrite elem_of_nil. tauto.
  - rewrite IH, elem_of_cons. destruct st as [pm ln]. unfold resolveStep.
    destruct (bool_decide (q = Package.PkgPath pkg)
              && bool_decide (outputPackagePath = Package.PkgPath pkg)) eqn:Hself.
    + apply andb_true_iff in Hself as [Hq Ho].
      apply bool_decide_eq_true in Hq, Ho. simpl. split; [tauto|].
      intros [?|[[->|?] Hn]]; [tauto| |tauto]. destruct Hn. done.
    + assert (¬ (q = Package.PkgPath pkg ∧ outputPackagePath = Package.PkgPath pkg)) as Hn.
      { intros [Hq Ho]. by rewrite !bool_decide_eq_true_2 in Hself. }
      simpl. rewrite lookup_insert_is_Some. split.
      * intros [[->|[_ ?]]|?]; tauto.
      * intros [?|[[->|?] ?]]; [|tauto|tauto].
        destruct (decide (q = pth)); tauto.
Qed.

Lemma elem_of_requiredImports (pkg : Package.t) (pth : string) :
  pth ∈ requiredImports pkg
  ↔ pth = gomockImportPath ∨ pth ∈ Package.Imports pkg
    ∨ (pth = "reflect"
       ∧ Exists (λ intf, Interface.Methods intf ≠ []) (Package.Interfaces pkg)).
Proof.
  unfold requiredImports.
  destruct (existsb _ _) eqn:Hex.
  - apply existsb_exists in Hex as (intf & Hin & Hm).
    apply bool_decide_eq_true in Hm.
    assert (Exists (λ intf, Interface.Methods intf ≠ []) (Package.Interfaces pkg)) as He.
    { apply Exists_exists. exists intf. split; [by apply list_elem_of_In|].
      destruct (Interface.Methods intf); [simpl in Hm; lia|done]. }
    rewrite !elem_of_union, !elem_of_singleton. tauto.
  - assert (¬ Exists (λ intf, Interface.Methods intf ≠ []) (Package.Interfaces pkg)) as He.
    { intros (intf & Hin & Hm)%Exists_exists.
      assert (existsb (λ intf, bool_decide (0 < length (Interface.Methods intf))%nat)
                (Package.Interfaces pkg) = true) as Ht; [|congruence].
      apply existsb_exists. exists intf. split; [by apply list_elem_of_In|].
      apply bool_decide_eq_true. destruct (Interface.Methods intf); [done|simpl; lia]. }
    rewrite !elem_of_union, !elem_of_singleton. tauto.
Qed.

(** X9. The alias table [Generate] leaves has an alias for exactly these paths:
    the gomock package, the imports of the model, and [reflect] when some
    interface has a method (an empty interface needs no recorder method);
    minus the path of the source package when the output package is that
    package. *)
Theorem Generate_alias_coverage E ord flags g pkg outputPkgName outputPackagePath
    pkg' g' (pth : string) :
  Generate E ord flags g pkg outputPkgName outputPackagePath = Some (pkg', g') →
  is_Some (packageMap g' !! pth)
  ↔ (pth = gomockImportPath ∨ pth ∈ Package.Imports pkg
     ∨ (pth = "reflect"
        ∧ Exists (λ intf, Interface.Methods intf ≠ []) (Package.Interfaces pkg)))
    ∧ ¬ (pth = Package.PkgPath pkg
         ∧ effectiveOutputPackagePath flags pkg outputPkgName outputPackagePath
           = Package.PkgPath pkg).
Proof.
  intros HG. apply Generate_packageMap in HG as (definedImports & _ & ->).
  unfold resolvedPackageMap, resolveAliases. rewrite resolve_fold_dom.
  rewrite <- elem_of_requiredImports. simpl. rewrite lookup_empty.
  assert (pth ∈ sortedImportPaths ord (requiredImports pkg) ↔ pth ∈ requiredImports pkg)
    as ->.
  { unfold sortedImportPaths. rewrite merge_sort_Permutation, rangeSet_perm.
    apply elem_of_elements. }
  split; [intros [[? [=]]|?]; done|tauto].
Qed.

Lemma Generate_alias_coverage_witness :
  ∃ pkg' g',
    Generate plainEnv canonicalOrder plainFlags newGenerator connPkg "mock_foo" ""
    = Some (pkg', g')
    ∧ (is_Some (packageMap g' !! "reflect")
       ↔ ("reflect" = gomockImportPath ∨ "reflect" ∈ Package.Imports connPkg
          ∨ ("reflect" = "reflect"
             ∧ Exists (λ intf, Interface.Methods intf ≠ []) (Package.Interfaces connPkg)))
         ∧ ¬ ("reflect" = Package.PkgPath connPkg
              ∧ effectiveOutputPackagePath plainFlags connPkg "mock_foo" ""
                = Package.PkgPath connPkg)).
Proof.
  assert (∃ pkg' g', Generate plainEnv canonicalOrder plainFlags newGenerator
                       connPkg "mock_foo" "" = Some (pkg', g')) as (pkg' & g' & HG).
  { vm_compute. eexists _, _. reflexivity. }
  exists pkg', g'. split; [exact HG|].
  exact (Generate_alias_coverage _ _ _ _ _ _ _ _ _ "reflect" HG).
Defined.

(** ** The generator after [Generate] *)

(** X10. [Generate] only appends to the buffer, and of the other fields of the
    generator it changes the alias table alone: the indentation is back
    where it was, and the names, the source description, the destination,
    the copyright header and the build constraint are untouched. *)
Theorem Generate_generator_frame E ord flags g pkg outputPkgName outputPackagePath
    pkg' g' :
  Generate E ord flags g pkg outputPkgName outputPackagePath = Some (pkg', g') →
  buf g `prefix_of` buf g'
  ∧ indent g' = indent g
  ∧ mockNames g' = mockNames g
  ∧ filename g' = filename g
  ∧ destination g' = destination g
  ∧ srcPackage g' = srcPackage g
  ∧ srcInterfaces g' = srcInterfaces g
  ∧ copyrightHeader g' = copyrightHeader g
  ∧ buildConstraint g' = buildConstraint g.
Proof.
  rewrite Generate_spec. intros HG.
  destruct (parseDefinedImports (imports flags)) as [definedImports|]; [|done].
  simpl in HG. injection HG as _ <-.
  split; [|done]. eexists. reflexivity.
Qed.

Lemma Generate_generator_frame_witness :
  ∃ pkg' g',
    Generate plainEnv canonicalOrder plainFlags newGenerator connPkg "mock_foo" ""
    = Some (pkg', g')
    ∧ buf newGenerator `prefix_of` buf g'
    ∧ indent g' = indent newGenerator
    ∧ mockNames g' = mockNames newGenerator
    ∧ filename g' = filename newGenerator
    ∧ destination g' = destination newGenerator
    ∧ srcPackage g' = srcPackage newGenerator
    ∧ srcInterfaces g' = srcInterfaces newGenerator
    ∧ copyrightHeader g' = copyrightHeader newGenerator
    ∧ buildConstraint g' = buildConstraint newGenerator.
Proof.
  assert (∃ pkg' g', Generate plainEnv canonicalOrder plainFlags newGenerator
                       connPkg "mock_foo" "" = Some (pkg', g')) as (pkg' & g' & HG).
  { vm_compute. eexists _, _. reflexivity. }
  exists pkg', g'. split; [exact HG|].
  exact (Generate_generator_frame _ _ _ _ _ _ _ _ _ HG).
Defined.

(** ** Parsing the flags *)


Lemma hasByte_app (c : ascii) (s t : string) :
  hasByte c (s +:+ t) = hasByte c s || hasByte c t.
Proof.
  induction s as [|a s IH]; [done|]. rewrite ?app_cons. simpl.
  by rewrite IH, orb_assoc.
Qed.

Lemma cutAt_app (sep : ascii) (k v : string) :
  hasByte sep k = false → cutAt sep (k +:+ String sep v) = Some (k, v).
Proof.
  induction k as [|a k IH]; simpl; intros Hk.
  - by rewrite decide_True.
  - apply orb_false_iff in Hk as [Ha Hk]. apply bool_decide_eq_false in Ha.
    rewrite ?app_cons. simpl. rewrite decide_False by done. by rewrite IH.
Qed.


Lemma cutAt_Some (sep : ascii) (kv k v : string) :
  cutAt sep kv = Some (k, v) → kv = k +:+ String sep v ∧ hasByte sep k = false.
Proof.
  revert k. induction kv as [|a kv IH]; simpl; intros k; [done|].
  case_decide as Ha.
  - intros [= <- <-]. by subst a.
  - destruct (cutAt sep kv) as [[k' v']|]; [|done]. simpl. intros [= <- <-].
    destruct (IH k' eq_refl) as [-> Hk']. split; [done|].
    simpl. by rewrite bool_decide_eq_false_2.
Qed.

(** Cutting at the first separator leaves at least what follows any other
    one. *)
Lemma cutAt_any (sep : ascii) (k v : string) :
  ∃ k' m, cutAt sep (k +:+ String sep v) = Some (k', m +:+ v).
Proof.
  induction k as [|a k IH]; simpl.
  - rewrite decide_True by done. by exists "", "".
  - rewrite ?app_cons. simpl. case_decide as Ha.
    + exists "", (k +:+ String sep ""). by rewrite app_assoc_s.
    + destruct IH as (k' & m & ->). by exists (String a k'), m.
Qed.

Lemma Split_single (s : string) (sep : ascii) :
  hasByte sep s = false → Split s sep = [s].
Proof.
  induction s as [|a s IH]; simpl; [done|]. intros [Ha Hs]%orb_false_iff.
  apply bool_decide_eq_false in Ha. rewrite decide_False by done. by rewrite IH.
Qed.

Lemma Split_app (s rest : string) (sep : ascii) :
  hasByte sep s = false → Split (s +:+ String sep rest) sep = s :: Split rest sep.
Proof.
  induction s as [|a s IH]; simpl.
  - intros _. by rewrite decide_True.
  - intros [Ha Hs]%orb_false_iff. apply bool_decide_eq_false in Ha.
    rewrite ?app_cons. simpl. rewrite decide_False by done. by rewrite IH.
Qed.

Lemma Split_Join (l : list string) (sep : ascii) :
  l ≠ [] → Forall (λ s, hasByte sep s = false) l →
  Split (Join l (String sep "")) sep = l.
Proof.
  induction l as [|s [|s' l] IH]; intros Hne Hl; [done| |].
  - simpl. apply Split_single. by inversion Hl.
  - rewrite Join_cons by done. inversion Hl as [|? ? Hs Hl']; subst.
    change (String sep "" +:+ Join (s' :: l) (String sep ""))
      with (String sep (Join (s' :: l) (String sep ""))).
    rewrite Split_app by done. by rewrite IH.
Qed.

Lemma pairsFlag_Split (pairs : list (string * string)) :
  pairs ≠ [] →
  Forall (λ kv, hasByte "," kv.1 = false ∧ hasByte "," kv.2 = false) pairs →
  Split (pairsFlag pairs) "," = (λ kv, kv.1 +:+ "=" +:+ kv.2) <$> pairs.
Proof.
  intros Hne Hwf. unfold pairsFlag. apply Split_Join.
  - by destruct pairs.
  - apply Forall_fmap. eapply Forall_impl; [exact Hwf|].
    intros [k v] [Hk Hv]. simpl in *. rewrite !hasByte_app, Hk, Hv. done.
Qed.

Lemma pairsFlag_nonempty (pairs : list (string * string)) :
  pairs ≠ [] → pairsFlag pairs ≠ "".
Proof.
  destruct pairs as [|[k v] pairs]; [done|]. intros _. unfold pairsFlag.
  rewrite fmap_cons. simpl fst. simpl snd.
  destruct pairs as [|kv pairs].
  - simpl. apply app_nonempty. done.
  - rewrite Join_cons by done. rewrite app_assoc_s. apply app_nonempty. done.
Qed.

(** Inserting the pairs one after the other: with distinct keys the table
    holds exactly the pairs that pass the test. *)
Lemma foldl_insert_lookup {A} (key val : A → string) (keep : A → Prop)
    `{∀ e, Decision (keep e)} (l : list A) :
  NoDup (key <$> l) →
  ∀ k v, foldl (λ (m : gmap string string) e,
                  if decide (keep e) then <[key e := val e]> m else m) ∅ l !! k = Some v
         ↔ ∃ e, e ∈ l ∧ keep e ∧ key e = k ∧ val e = v.
Proof.
  induction l as [|e l IH] using rev_ind; intros Hnd k v.
  - simpl. rewrite lookup_empty. split; [done|]. by intros (e & []%elem_of_nil & _).
  - rewrite fmap_app in Hnd. apply NoDup_app in Hnd as (Hnd & Hfresh & _).
    rewrite foldl_app. simpl. specialize (IH Hnd).
    assert (key e ∉ key <$> l) as He.
    { intros Hin. apply (Hfresh _ Hin). simpl. left. }
    case_decide as Hkeep.
    + destruct (decide (key e = k)) as [<-|Hk].
      * rewrite lookup_insert_eq. split.
        -- intros [= <-]. exists e. rewrite elem_of_app, list_elem_of_singleton. tauto.
        -- intros (e' & [Hin| ->%list_elem_of_singleton]%elem_of_app & _ & Hk' & <-);
             [|done].
           destruct He. rewrite <- Hk'. by apply list_elem_of_fmap_2.
      * rewrite lookup_insert_ne by done. rewrite IH. split.
        -- intros (e' & ? & ?). exists e'. rewrite elem_of_app. tauto.
        -- intros (e' & [Hin| ->%list_elem_of_singleton]%elem_of_app & ? & Hk' & ?);
             [|done]. by exists e'.
    + rewrite IH. split.
      * intros (e' & ? & ?). exists e'. rewrite elem_of_app. tauto.
      * intros (e' & [Hin| ->%list_elem_of_singleton]%elem_of_app & ? & Hk' & ?);
          [|done]. by exists e'.
Qed.



Lemma foldl_definedImports_pairs (pairs : list (string * string)) :
  ∀ m : gmap string string,
    Forall (λ kv, hasByte "=" kv.1 = false) pairs →
    foldl (λ acc kv,
             definedImports ← acc;
             '(k, v) ← cutAt "="%char kv;
             Some (if decide (k ≠ ".") then <[v := k]> definedImports
                   else definedImports)) (Some m)
      ((λ kv, kv.1 +:+ "=" +:+ kv.2) <$> pairs)
    = Some (foldl (λ m kv, if decide (kv.1 ≠ ".") then <[kv.2 := kv.1]> m else m)
              m pairs).
Proof.
  induction pairs as [|[k v] pairs IH]; intros m Hwf; [done|].
  inversion Hwf as [|? ? Hk Hwf']; subst. rewrite fmap_cons. simpl in Hk.
  cbn [foldl fst snd mbind option_bind].
  change (k +:+ "=" +:+ v) with (k +:+ String "=" v).
  rewrite cutAt_app by done. cbn [mbind option_bind]. by rewrite IH.
Qed.

(** X12. A well-formed [-imports] flag is read back as the pairs it was made of:
    with entries [name=path] whose names have no [=] and no comma, whose
    paths have no comma and are distinct, the table maps each path to its
    name, except that an entry with the name [.] is left out. *)
Theorem parseDefinedImports_pairs (pairs : list (string * string)) :
  Forall (λ kv, hasByte "=" kv.1 = false ∧ hasByte "," kv.1 = false
                ∧ hasByte "," kv.2 = false) pairs →
  NoDup pairs.*2 →
  ∃ definedImports,
    parseDefinedImports (pairsFlag pairs) = Some definedImports
    ∧ ∀ pth name, definedImports !! pth = Some name
                  ↔ (name, pth) ∈ pairs ∧ name ≠ ".".
Proof.
  intros Hwf Hnd.
  exists (foldl (λ m kv, if decide (kv.1 ≠ ".") then <[kv.2 := kv.1]> m else m) ∅ pairs).
  split.
  - unfold parseDefinedImports. destruct pairs as [|kv pairs]; [done|].
    rewrite decide_True by by apply pairsFlag_nonempty.
    rewrite pairsFlag_Split; [|done|].
    + apply foldl_definedImports_pairs. eapply Forall_impl; [exact Hwf|]. naive_solver.
    + eapply Forall_impl; [exact Hwf|]. naive_solver.
  - intros pth name.
    pose proof (foldl_insert_lookup snd fst (λ kv : string * string, kv.1 ≠ ".")
                  pairs Hnd pth name) as Hlook.
    cbv beta in Hlook. rewrite Hlook. split.
    + intros ([k v] & Hin & Hkeep & <- & <-). done.
    + intros [Hin Hne]. by exists (name, pth).
Qed.

Lemma parseDefinedImports_pairs_witness :
  ∃ definedImports,
    parseDefinedImports "tmpl=html/template,.=example.com/dot" = Some definedImports
    ∧ ∀ pth name, definedImports !! pth = Some name
                  ↔ (name, pth) ∈ [("tmpl", "html/template"); (".", "example.com/dot")]
                    ∧ name ≠ ".".
Proof.
  apply (parseDefinedImports_pairs
           [("tmpl", "html/template"); (".", "example.com/dot")]).
  - repeat constructor.
  - compute_done.
Defined.

(** *** [-mock_names] *)

Lemma cutAt_empty_value (kv : string) :
  (cutAt "=" kv = None ∨ ∃ k, cutAt "=" kv = Some (k, ""))
  ↔ ∀ k v, kv = k +:+ "=" +:+ v → v = "".
Proof.
  split.
  - intros Hcut k v ->. change (k +:+ "=" +:+ v) with (k +:+ String "=" v) in Hcut.
    destruct (cutAt_any "=" k v) as (k' & m & Hany). rewrite Hany in Hcut.
    destruct Hcut as [[=]|[k0 [= _ Hm]]].
    destruct v; [done|]. exfalso. by eapply app_nonempty, Hm.
  - intros Hall. destruct (cutAt "=" kv) as [[k v]|] eqn:Hcut; [|by left].
    right. apply cutAt_Some in Hcut as [-> _]. rewrite (Hall k v eq_refl). by exists k.
Qed.

Lemma foldl_mockNames_None (l : list string) :
  ∀ acc : option (gmap string string),
    foldl (λ acc kv,
             mocksMap ← acc;
             '(k, v) ← cutAt "="%char kv;
             if decide (v = "") then None else Some (<[k := v]> mocksMap)) acc l = None
    ↔ acc = None
      ∨ ∃ kv, kv ∈ l ∧ (cutAt "=" kv = None ∨ ∃ k, cutAt "=" kv = Some (k, "")).
Proof.
  induction l as [|kv l IH]; intros acc; simpl.
  - split; [tauto|]. intros [?|(kv & []%elem_of_nil & _)]. done.
  - rewrite IH. split.
    + intros [Hstep|(kv' & Hin & Hkv')].
      * destruct acc as [m|]; [|tauto]. right. exists kv. split; [left|].
        simpl in Hstep. destruct (cutAt "=" kv) as [[k v]|]; [|by left].
        simpl in Hstep. case_decide; [|done]. subst v. right. by exists k.
      * right. exists kv'. split; [by right|done].
    + intros [->|(kv' & [->|Hin]%elem_of_cons & Hkv')]; [by left| |].
      * left. destruct acc; simpl; [|done].
        destruct Hkv' as [->|[k ->]]; done.
      * right. by exists kv'.
Qed.

(** X13. [parseMockNames] ends the program exactly when some comma-separated
    entry is not of the form [interface=mock] with a non-empty mock name; in
    particular on the empty string, which is why [main] calls it for a
    non-empty flag only. *)
Theorem parseMockNames_fails_iff (names : string) :
  parseMockNames names = None
  ↔ ∃ kv, kv ∈ Split names "," ∧ ∀ k v, kv = k +:+ "=" +:+ v → v = "".
Proof.
  unfold parseMockNames. rewrite foldl_mockNames_None. split.
  - intros [[=]|(kv & Hin & Hkv)]. exists kv. by rewrite <- cutAt_empty_value.
  - intros (kv & Hin & Hkv). right. exists kv. by rewrite cutAt_empty_value.
Qed.

Lemma foldl_mockNames_pairs (pairs : list (string * string)) :
  ∀ m : gmap string string,
    Forall (λ kv, hasByte "=" kv.1 = false ∧ kv.2 ≠ "") pairs →
    foldl (λ acc kv,
             mocksMap ← acc;
             '(k, v) ← cutAt "="%char kv;
             if decide (v = "") then None else Some (<[k := v]> mocksMap)) (Some m)
      ((λ kv, kv.1 +:+ "=" +:+ kv.2) <$> pairs)
    = Some (foldl (λ m kv, if decide True then <[kv.1 := kv.2]> m else m) m pairs).
Proof.
  induction pairs as [|[k v] pairs IH]; intros m Hwf; [done|].
  inversion Hwf as [|? ? [Hk Hv] Hwf']; subst. rewrite fmap_cons. simpl in Hk, Hv.
  cbn [foldl fst snd mbind option_bind].
  change (k +:+ "=" +:+ v) with (k +:+ String "=" v).
  rewrite cutAt_app by done. cbn [mbind option_bind].
  rewrite decide_False by done. by rewrite IH.
Qed.

(** X14. A well-formed [-mock_names] flag gives each interface it lists the mock
    name written for it, and leaves every other interface with the default
    [Mock] followed by the interface name. *)
Theorem parseMockNames_mockName (pairs : list (string * string)) :
  pairs ≠ [] →
  Forall (λ kv, hasByte "=" kv.1 = false ∧ hasByte "," kv.1 = false
                ∧ hasByte "," kv.2 = false ∧ kv.2 ≠ "") pairs →
  NoDup pairs.*1 →
  ∃ names,
    parseMockNames (pairsFlag pairs) = Some names
    ∧ ∀ g typeName,
        (∀ mock, (typeName, mock) ∈ pairs →
                 mockName (withMockNames g names) typeName = mock)
        ∧ (typeName ∉ pairs.*1 →
           mockName (withMockNames g names) typeName = "Mock" +:+ typeName).
Proof.
  intros Hne Hwf Hnd.
  exists (foldl (λ m kv, if decide True then <[kv.1 := kv.2]> m else m) ∅ pairs).
  split.
  - unfold parseMockNames. rewrite pairsFlag_Split; [|done|].
    + apply foldl_mockNames_pairs. eapply Forall_impl; [exact Hwf|]. naive_solver.
    + eapply Forall_impl; [exact Hwf|]. naive_solver.
  - intros g typeName. unfold mockName. cbn [mockNames withMockNames].
    pose proof (foldl_insert_lookup fst snd (λ _ : string * string, True) pairs Hnd
                  typeName) as Hlook.
    split.
    + intros mock Hin. rewrite (proj2 (Hlook mock)); [done|]. by exists (typeName, mock).
    + intros Hnot.
      destruct (foldl _ ∅ pairs !! typeName) as [mock|] eqn:Hm; [|done].
      destruct (proj1 (Hlook mock) eq_refl) as ([k v] & Hin & _ & <- & _). destruct Hnot.
      by apply (list_elem_of_fmap_2 fst) in Hin.
Qed.

Lemma parseMockNames_mockName_witness :
  ∃ names,
    parseMockNames "Reader=FakeReader,Writer=FakeWriter" = Some names
    ∧ ∀ g typeName,
        (∀ mock, (typeName, mock) ∈ [("Reader", "FakeReader"); ("Writer", "FakeWriter")] →
                 mockName (withMockNames g names) typeName = mock)
        ∧ (typeName ∉ [("Reader", "FakeReader"); ("Writer", "FakeWriter")].*1 →
           mockName (withMockNames g names) typeName = "Mock" +:+ typeName).
Proof.
  apply (parseMockNames_mockName [("Reader", "FakeReader"); ("Writer", "FakeWriter")]).
  - done.
  - repeat constructor; done.
  - compute_done.
Defined.

(** *** [-exclude_interfaces] *)

Lemma foldl_excluded (l : list string) :
  ∀ (s : gset string) (name : string),
    name ∈ foldl (λ namesSet name,
                    if decide (name = "") then namesSet else {[name]} ∪ namesSet) s l
    ↔ name ∈ s ∨ (name ≠ "" ∧ name ∈ l).
Proof.
  induction l as [|x l IH]; intros s name; simpl.
  - rewrite elem_of_nil. tauto.
  - rewrite IH, elem_of_cons. case_decide as Hx.
    + subst x. split; [tauto|]. intros [?|[? [->|?]]]; tauto.
    + rewrite elem_of_union, elem_of_singleton. split.
      * intros [[->|?]|?]; tauto.
      * intros [?|[? [->|?]]]; tauto.
Qed.

(** X15. [parseExcludeInterfaces] returns the set of the non-empty names between
    the commas, so the empty name is never excluded; and it returns the nil
    map, not an empty one, when there is no such name. *)
Theorem parseExcludeInterfaces_spec (names : string) :
  match parseExcludeInterfaces names with
  | None => ∀ name, name ∈ Split names "," → name = ""
  | Some namesSet =>
      namesSet ≠ ∅
      ∧ ∀ name, name ∈ namesSet ↔ name ≠ "" ∧ name ∈ Split names ","
  end.
Proof.
  unfold parseExcludeInterfaces. cbv zeta.
  set (namesSet := foldl _ ∅ (Split names ",")).
  assert (∀ name, name ∈ namesSet ↔ name ≠ "" ∧ name ∈ Split names ",") as Hin.
  { intros name. unfold namesSet. rewrite foldl_excluded. set_solver. }
  case_decide as Hsize.
  - apply size_empty_iff in Hsize. intros name Hname.
    destruct (decide (name = "")) as [|Hne]; [done|].
    assert (name ∈ namesSet) as Hmem by (apply Hin; done). set_solver.
  - split; [|done]. intros Hempty. rewrite Hempty in Hsize. by rewrite size_empty in Hsize.
Qed.

(** ** Names of the arguments *)



(** ** More on [sanitize] *)

Lemma runes_ascii_cons (c : ascii) (s : string) :
  (byteZ c <? 0x80) = true → runes (String c s) = byteZ c :: runes s.
Proof.
  intros Hc. unfold runes.
  assert (DecodeRuneInString (String c s) = (byteZ c, 1%nat)) as Hd.
  { unfold DecodeRuneInString. by rewrite Hc. }
  change (runesFrom (String.length (String c s)) (String c s))
    with (let '(r, size) := DecodeRuneInString (String c s) in
          r :: runesFrom (String.length s) (dropBytes size (String c s))).
  by rewrite Hd.
Qed.

Lemma runes_nonempty (s : string) : s ≠ "" → runes s ≠ [].
Proof.
  destruct s as [|c s]; [done|]. intros _. unfold runes.
  change (runesFrom (String.length (String c s)) (String c s))
    with (let '(r, size) := DecodeRuneInString (String c s) in
          r :: runesFrom (String.length s) (dropBytes size (String c s))).
  by destruct (DecodeRuneInString (String c s)).
Qed.

Lemma sanitize_text E (s : string) :
  foldl (sanitizeStep E) "" (runes s)
  = foldr String.app "" (imap (sanitizedRune E) (runes s)).
Proof. by rewrite (sanitize_loop E (runes s) "" 0). Qed.

Lemma sanitize_text_cons E (c : ascii) (s : string) :
  (byteZ c <? 0x80) = true →
  foldl (sanitizeStep E) "" (runes (String c s))
  = sanitizedRune E 0 (byteZ c) +:+ sanitizedTail E s.
Proof.
  intros Hc. rewrite sanitize_text, runes_ascii_cons by done.
  rewrite imap_cons. reflexivity.
Qed.

Lemma sanitizedTail_cons E (c : ascii) (s : string) :
  (byteZ c <? 0x80) = true →
  sanitizedTail E (String c s) = sanitizedRune E 1 (byteZ c) +:+ sanitizedTail E s.
Proof.
  intros Hc. unfold sanitizedTail. rewrite runes_ascii_cons by done.
  rewrite imap_cons. reflexivity.
Qed.

(** X17. [sanitize] gives the empty string for the empty string only. *)
Theorem sanitize_empty_iff E (s : string) : sanitize E s = "" ↔ s = "".
Proof.
  split; [|by intros ->].
  intros Hs. destruct (decide (s = "")) as [|Hne]; [done|]. exfalso.
  unfold sanitize in Hs. cbv zeta in Hs. rewrite sanitize_text in Hs.
  case_decide; [done|].
  destruct (runes s) as [|r rs] eqn:Hr; [by apply runes_nonempty in Hr|].
  rewrite imap_cons in Hs. cbn [foldr] in Hs.
  pose proof (sanitizedRune_nonempty E 0 r) as Hn.
  destruct (sanitizedRune E 0 r); [done|]. by rewrite app_cons in Hs.
Qed.

Lemma byteOf_byteZ (c : ascii) : byteOf (byteZ c) = c.
Proof. unfold byteOf, byteZ. by rewrite N2Z.id, ascii_N_embedding. Qed.

Lemma byteZ_nonneg (c : ascii) : 0 ≤ byteZ c.
Proof. unfold byteZ. apply N2Z.is_nonneg. Qed.

Lemma sanitizedRune_ascii E (i : nat) (c : ascii) :
  (byteZ c <? 0x80) = true →
  sanitizedRune E i (byteZ c)
  = String (if keptAt E i (byteZ c) then c else "_"%char) "".
Proof.
  intros Hc. unfold sanitizedRune. destruct (keptAt E i (byteZ c)); [|done].
  unfold runeString. cbv zeta.
  assert (within 0 0x7F (byteZ c) = true) as ->.
  { unfold within. pose proof (byteZ_nonneg c). apply Z.ltb_lt in Hc.
    apply andb_true_iff. split; apply Z.leb_le; lia. }
  by rewrite byteOf_byteZ.
Qed.

Lemma identifierByte_kept E (i : nat) (c : ascii) :
  (byteZ c <? 0x80) = true →
  identifierByte i (if keptAt E i (byteZ c) then c else "_"%char) = true.
Proof.
  intros Hc. destruct (keptAt E i (byteZ c)) eqn:Hk; [|by destruct i].
  pose proof (byteZ_nonneg c) as H0. apply Z.ltb_lt in Hc.
  unfold identifierByte. cbv zeta.
  unfold keptAt, IsLetter, IsDigit, underscore in Hk.
  assert (within 0 0xFF (byteZ c) = true) as Hw.
  { unfold within. apply andb_true_iff. split; apply Z.leb_le; lia. }
  rewrite Hw in Hk. unfold within in *.
  destruct i;
    rewrite ?orb_true_iff, ?andb_true_iff, ?Z.leb_le, ?Z.eqb_eq in Hk;
    rewrite ?orb_true_iff, ?andb_true_iff, ?Z.leb_le, ?Z.eqb_eq;
    clear Hw; set (b := byteZ c) in *; clearbody b; intuition lia.
Qed.

Lemma runes_ascii (s : string) :
  asciiOnly s = true → runes s = byteZ <$> String.list_ascii_of_string s.
Proof.
  unfold asciiOnly. induction s as [|c s IH]; simpl; [done|].
  intros [Hc Hs]%andb_true_iff. rewrite runes_ascii_cons by done. by rewrite IH.
Qed.

Lemma sanitize_text_ascii E (cs : list ascii) :
  ∀ k : nat,
    forallb (λ c, byteZ c <? 0x80) cs = true →
    foldr String.app "" (imap (λ i, sanitizedRune E (k + i)) (byteZ <$> cs))
    = String.string_of_list_ascii
        (imap (λ i c, if keptAt E (k + i) (byteZ c) then c else "_"%char) cs).
Proof.
  induction cs as [|c cs IH]; intros k; simpl; [done|].
  intros [Hc Hcs]%andb_true_iff.
  rewrite (imap_ext _ (λ i, sanitizedRune E (S k + i)))
    by (intros; simpl; f_equal; lia).
  rewrite (imap_ext _ (λ i c0, if keptAt E (S k + i) (byteZ c0) then c0 else "_"%char))
    by (intros i c0 _; simpl; by replace (k + S i)%nat with (S (k + i))%nat by lia).
  rewrite IH by done. rewrite sanitizedRune_ascii by done. reflexivity.
Qed.

Lemma length_string_of_list_ascii (l : list ascii) :
  String.length (String.string_of_list_ascii l) = length l.
Proof. induction l as [|a l IH]; simpl; [done|]. by rewrite IH. Qed.

Lemma length_list_ascii_of_string (s : string) :
  length (String.list_ascii_of_string s) = String.length s.
Proof. induction s as [|a s IH]; simpl; [done|]. by rewrite IH. Qed.

(** X18. On a non-empty name of bytes below 0x80, the case of every ordinary Go
    package name, [sanitize] gives an identifier of the same length: each
    byte is kept or replaced by one underscore, and the lone underscore by
    [x]. *)
Theorem sanitize_ascii_identifier E (s : string) :
  asciiOnly s = true → s ≠ "" →
  String.length (sanitize E s) = String.length s
  ∧ isIdentifier (sanitize E s) = true.
Proof.
  intros Hascii Hne. unfold sanitize. cbv zeta.
  rewrite sanitize_text, (runes_ascii s Hascii).
  set (cs := String.list_ascii_of_string s) in *.
  assert (foldr String.app "" (imap (sanitizedRune E) (byteZ <$> cs))
          = String.string_of_list_ascii
              (imap (λ i c, if keptAt E i (byteZ c) then c else "_"%char) cs)) as ->.
  { exact (sanitize_text_ascii E cs 0 Hascii). }
  set (out := imap _ cs).
  assert (length out = String.length s) as Hlen.
  { unfold out, cs. by rewrite length_imap, length_list_ascii_of_string. }
  case_decide as Hx.
  - split; [|done]. rewrite <- Hlen, <- length_string_of_list_ascii, Hx. done.
  - split; [by rewrite length_string_of_list_ascii|].
    unfold isIdentifier. apply andb_true_iff. split.
    + apply bool_decide_eq_true. intros Hempty.
      apply (f_equal String.length) in Hempty.
      rewrite length_string_of_list_ascii, Hlen in Hempty.
      destruct s; [done|]. simpl in Hempty. lia.
    + rewrite String.list_ascii_of_string_of_list_ascii.
      apply forallb_forall. intros b Hb. apply list_elem_of_In in Hb.
      apply elem_of_lookup_imap in Hb as (i & c' & -> & Hi).
      unfold out in Hi. rewrite list_lookup_imap in Hi.
      destruct (cs !! i) as [c|] eqn:Hc; [|done]. simpl in Hi. injection Hi as <-.
      apply identifierByte_kept.
      unfold asciiOnly in Hascii. rewrite forallb_forall in Hascii.
      apply Hascii, list_elem_of_In. by eapply list_elem_of_lookup_2.
Qed.

Lemma sanitize_ascii_identifier_witness :
  String.length (sanitize plainEnv "go-mock.v2") = String.length "go-mock.v2"
  ∧ isIdentifier (sanitize plainEnv "go-mock.v2") = true.
Proof. apply sanitize_ascii_identifier; [reflexivity|done]. Defined.

(** *** The default name of the output package *)

Lemma sanitizedTail_mock E (y : string) :
  sanitizedTail E ("mock_" +:+ y) = "mock_" +:+ sanitizedTail E y.
Proof.
  change ("mock_" +:+ y)
    with (String "m" (String "o" (String "c" (String "k" (String "_" y))))).
  rewrite !sanitizedTail_cons by reflexivity. reflexivity.
Qed.

Lemma sanitizedTail_no_fixpoint E :
  ∀ (n : nat) (y : string),
    (String.length y ≤ n)%nat → y ≠ "mock_" +:+ sanitizedTail E y.
Proof.
  induction n as [|n IH]; intros y Hlen Hy.
  - rewrite Hy in Hlen. simpl in Hlen. lia.
  - set (y' := sanitizedTail E y) in *.
    assert (y' = "mock_" +:+ sanitizedTail E y') as Hy'.
    { unfold y' at 1. rewrite Hy. apply sanitizedTail_mock. }
    apply (IH y'); [|done]. rewrite Hy in Hlen. rewrite length_app_s in Hlen.
    simpl in Hlen. lia.
Qed.

Lemma sanitize_mock E (r : string) :
  sanitize E ("mock_" +:+ r) = "mock_" +:+ sanitizedTail E r.
Proof.
  unfold sanitize. cbv zeta.
  change ("mock_" +:+ r)
    with (String "m" (String "o" (String "c" (String "k" (String "_" r))))).
  rewrite sanitize_text_cons by reflexivity.
  rewrite !sanitizedTail_cons by reflexivity.
  change (sanitizedRune E 0 (byteZ "m") +:+ sanitizedRune E 1 (byteZ "o")
          +:+ sanitizedRune E 1 (byteZ "c") +:+ sanitizedRune E 1 (byteZ "k")
          +:+ sanitizedRune E 1 (byteZ "_") +:+ sanitizedTail E r)
    with (String "m" (String "o" (String "c" (String "k"
            (String "_" (sanitizedTail E r)))))).
  rewrite decide_False by done. reflexivity.
Qed.

(** X19. Without the flag [-package] the output package is called [mock_]
    followed by the sanitized name of the source package, and that is never
    the name of the source package itself. So without [-self_package]
    [Generate] always resets the output package path (lines 332-335): left
    to the defaults, the generator never takes the mock to be in the source
    package, whatever path [main] inferred from the destination. *)
Theorem default_output_is_not_self E (flags : Flags) (pkg : Package.t)
    (outputPackagePath : string) :
  selfPackage flags = "" →
  outputPackageName E "" pkg ≠ Package.Name pkg
  ∧ effectiveOutputPackagePath flags pkg (outputPackageName E "" pkg)
      outputPackagePath = "".
Proof.
  intros Hself.
  assert (outputPackageName E "" pkg ≠ Package.Name pkg) as Hne.
  { unfold outputPackageName. rewrite decide_True by done.
    set (name := Package.Name pkg). intros Heq.
    apply (sanitizedTail_no_fixpoint E (String.length (sanitize E name))
             (sanitize E name)); [done|].
    rewrite <- Heq at 1. apply sanitize_mock. }
  split; [done|]. unfold effectiveOutputPackagePath.
  by rewrite !bool_decide_eq_true_2.
Qed.

Lemma default_output_is_not_self_witness :
  outputPackageName plainEnv "" connPkg ≠ Package.Name connPkg
  ∧ effectiveOutputPackagePath plainFlags connPkg (outputPackageName plainEnv "" connPkg)
      "example.com/foo" = "".
Proof. apply default_output_is_not_self. reflexivity. Defined.

(** ** The header *)

Lemma headerText_lines E (flags : Flags) (g : generator) :
  headerText E flags g
  = copyrightBlock (indent g) (copyrightHeader g)
    ++ constraintBlock (indent g) (buildConstraint g)
    ++ [indent g +:+ "// Code generated by MockGen. DO NOT EDIT." +:+ nl]
    ++ provenanceLines E flags (indent g) (filename g) (srcPackage g) (srcInterfaces g).
Proof.
  unfold headerText, copyrightBlock, constraintBlock, provenanceLines.
  rewrite <- (emit_nil (set_buf g [])).
  unfold writeHeader. cbv zeta. gen_fields.
  destruct (decide (copyrightHeader g ≠ "")); rewrite ?foldl_p; gen_norm; gen_fields;
    (destruct (decide (buildConstraint g ≠ "")); gen_norm; gen_fields;
     destruct (writeSourceComment flags), (writeCmdComment flags);
     try destruct (decide (filename g ≠ "")); gen_norm;
     rewrite buf_emit_on_empty, ?indent_set_buf;
     cbv iota; repeat rewrite <- (assoc_L (++)); simpl; reflexivity).
Qed.

(** X20. The text opens with the copyright header, every line of it as a line
    comment, then the build constraint, each followed by an empty line and
    left out when empty, and then the line that marks the file as
    generated; the source and command comments come after it. *)
Theorem header_order E (flags : Flags) (g : generator) :
  ∃ rest,
    headerText E flags g
    = copyrightBlock (indent g) (copyrightHeader g)
      ++ constraintBlock (indent g) (buildConstraint g)
      ++ [indent g +:+ "// Code generated by MockGen. DO NOT EDIT." +:+ nl]
      ++ rest.
Proof. rewrite headerText_lines. eexists. reflexivity. Qed.

(** X21. [Generate] does not read the alias table the generator comes with: it
    builds a new one, so a generator that has been used before gives the
    same model, the same text and the same table. *)
Theorem Generate_ignores_old_aliases E ord flags g pkg outputPkgName outputPackagePath
    (pm : gmap string string) :
  Generate E ord flags (set_packageMap g pm) pkg outputPkgName outputPackagePath
  = Generate E ord flags g pkg outputPkgName outputPackagePath.
Proof.
  rewrite !Generate_spec.
  destruct (parseDefinedImports (imports flags)) as [definedImports|]; [|done].
  cbn [mbind option_bind]. cbv zeta.
  rewrite !headerText_lines, packageClauseText_set_packageMap,
    directiveText_set_packageMap.
  reflexivity.
Qed.

(** ** The typed call wrapper *)

Lemma allocateIdentifier_free (o : gset string) (want : string) :
  want ∉ o → allocateIdentifier o want = (want, {[want]} ∪ o).
Proof. intros Hfree. unfold allocateIdentifier. simpl. by rewrite decide_False. Qed.

(** X22. The receiver of the typed call wrapper is chosen among the names
    that no argument has, so it is [c] when no argument is called [c]; the
    parameters of its [Return] method are the names of the results, which
    the choice does not look at. A method with a result called [c] and no
    such argument gets [Return(c ...)] on the receiver [c]. *)
Theorem returnCall_receiver (ord : MapOrder) (intf : Interface.t) (m : Method.t)
    (pkgOverride longTp shortTp : string) (g : generator) :
  "c" ∉ getArgNames ord g m true →
  let call := mockName g (Interface.Name intf) +:+ Method.Name m +:+ "Call"
              +:+ shortTp in
  returnCallText ord intf m pkgOverride longTp shortTp g !! 5%nat
  = Some (indent g
          +:+ ("func (c *" +:+ call +:+ ") Return("
               +:+ makeArgString (getArgNames ord g m false)
                     (getArgTypes g m pkgOverride false)
               +:+ ") *" +:+ call +:+ " {")
          +:+ nl).
Proof.
  intros Hc call. unfold returnCallText.
  rewrite <- (emit_nil (set_buf g [])).
  unfold GenerateMockReturnCallMethod. gen_entry. cbv zeta.
  rewrite (allocateIdentifier_free _ "c")
    by (unfold newIdentifierAllocator; by rewrite elem_of_list_to_set).
  gen_norm. rewrite buf_emit_on_empty. simpl. unfold call.
  by rewrite !app_assoc_s.
Qed.

Lemma returnCall_receiver_witness :
  returnCallText canonicalOrder calcIntf
    {| Method.Name := "Get"; Method.In := [param "k" "string"];
       Method.Out := [param "c" "int"]; Method.Variadic := None |}
    "" "" "" newGenerator !! 5%nat
  = Some ("func (c *MockCalcGetCall) Return(c int) *MockCalcGetCall {" +:+ nl).
Proof.
  apply (returnCall_receiver canonicalOrder calcIntf
           {| Method.Name := "Get"; Method.In := [param "k" "string"];
              Method.Out := [param "c" "int"]; Method.Variadic := None |}
           "" "" "" newGenerator).
  vm_compute. by intros [=]%list_elem_of_singleton.
Defined.
